(** * reduce.cpp: summing a matrix with statically or dynamically balanced threads

    A shallow embedding of [src/reduce.cpp].  The global variables of the
    program ([counter], [tcount], [sum]) form the shared state; every thread
    owns a program point with its local variables; a run is an interleaving
    of thread steps chosen by a schedule.  The accesses a step makes are the
    ones the source makes between two synchronisation points: the critical
    section under [counter_lock] is one step, and the summation of one row,
    which touches only the slot of the running thread, is one step. *)

From Stdlib Require Import Ascii.
From stdpp Require Import base numbers list strings.

Local Open Scope Z_scope.

(** ** Machine integers

    [int] and [unsigned int] are 32 bits wide, [uint64_t] 64 bits.  Unsigned
    arithmetic wraps; for [int] the two's complement wrap is written out as
    well, and the theorems state the ranges in which it is not reached. *)

Definition int_min : Z := Eval cbv in - 2 ^ 31.
Definition int_max : Z := Eval cbv in 2 ^ 31 - 1.
Definition uint_modulus : Z := Eval cbv in 2 ^ 32.
Definition u64_modulus : Z := Eval cbv in 2 ^ 64.

Definition to_int (z : Z) : Z := (z - int_min) `mod` uint_modulus + int_min.
Definition to_uint (z : Z) : Z := z `mod` uint_modulus.
Definition to_u64 (z : Z) : Z := z `mod` u64_modulus.

(** ** Globals *)

(** [constexpr int rows = 1000; constexpr int cols = 100;] *)
Definition rows : Z := 1000.
Definition cols : Z := 100.

(** Program points of a thread together with its live locals. *)
Inductive local :=
| StaticLoop (i num_threads : Z)  (* sum_static, at the test [i < rows] *)
| DynLock                         (* sum_dynamic, about to take counter_lock *)
| DynSum (count_copy : Z)         (* sum_dynamic, lock released, done = false *)
| Exited.                         (* the thread function has returned *)

(** [counter], [tcount], [sum] and the pool of running threads. *)
Record state := State {
  counter : Z;
  tcount : list Z;
  sum : list Z;
  threads : list local
}.

(** What a step lets an observer see: a row index handed out under the
    lock, and a row added to a thread's slot. *)
Inductive event :=
| Claimed (tid : nat) (row : Z)
| Summed (tid : nat) (row : Z).

(** [v[tid]]; the vectors are resized to the number of threads before any
    thread starts, so the index is in range in every run. *)
Definition slot (v : list Z) (tid : nat) : Z := default 0 (v !! tid).

Definition set_local (tid : nat) (l : local) (s : state) : state :=
  {| counter := counter s; tcount := tcount s; sum := sum s;
     threads := <[tid := l]> (threads s) |}.

Definition set_counter (c : Z) (s : state) : state :=
  {| counter := c; tcount := tcount s; sum := sum s; threads := threads s |}.

(** The critical section of [sum_dynamic]:
    [if (counter > 0) --counter; else done = true; count_copy = counter;]
    as a function from [counter] to the new [counter] (which is also
    [count_copy]) and [done]. *)
Definition claim (c : Z) : Z * bool :=
  if 0 <? c then (to_int (c - 1), false) else (c, true).

Section Reduce.

(** [work], as [main] left it before the first thread starts; nothing
    writes to it afterwards. *)
Variable work : Z → Z → Z.

(** [for (int j = 0; j < cols; ++j) sum[tid] += (uint64_t) work[i][j];] *)
Definition sum_row (acc : Z) (i : Z) : Z :=
  foldl (λ a j, to_u64 (a + to_u64 (work i j))) acc (seqZ 0 cols).

(** The row loop followed by [++tcount[tid]]. *)
Definition add_row (tid : nat) (i : Z) (s : state) : state :=
  {| counter := counter s;
     tcount := <[tid := to_int (slot (tcount s) tid + 1)]> (tcount s);
     sum := <[tid := sum_row (slot (sum s) tid) i]> (sum s);
     threads := threads s |}.

(** One turn of [while (i < rows) { ...; ++tcount[tid]; i += num_threads; }]. *)
Definition sum_static_step (tid : nat) (i num_threads : Z) (s : state)
  : state * list event :=
  if i <? rows then
    (set_local tid (StaticLoop (to_int (i + num_threads)) num_threads)
       (add_row tid i s),
     [Summed tid i])
  else (set_local tid Exited s, []).

(** [sum_dynamic] from [counter_lock.lock()] to [counter_lock.unlock()];
    with [done] set the test [if (!done)] and the loop test both fail and
    the thread returns. *)
Definition sum_dynamic_lock (tid : nat) (s : state) : state * list event :=
  let '(c, done) := claim (counter s) in
  if done then (set_local tid Exited (set_counter c s), [])
  else (set_local tid (DynSum c) (set_counter c s), [Claimed tid c]).

(** [sum_dynamic] after the unlock with [done = false]. *)
Definition sum_dynamic_row (tid : nat) (count_copy : Z) (s : state)
  : state * list event :=
  (set_local tid DynLock (add_row tid count_copy s), [Summed tid count_copy]).

(** The next step of thread [tid].  A turn given to a thread that has
    returned, or to an index outside the pool, changes nothing. *)
Definition thread_step (tid : nat) (s : state) : state * list event :=
  match threads s !! tid with
  | Some (StaticLoop i n) => sum_static_step tid i n s
  | Some DynLock => sum_dynamic_lock tid s
  | Some (DynSum r) => sum_dynamic_row tid r s
  | Some Exited | None => (s, [])
  end.

(** A run: the state together with the events so far, advanced by the
    thread the schedule names next. *)
Definition sched_step (c : state * list event) (tid : nat)
  : state * list event :=
  let '(s, e) := thread_step tid c.1 in (s, c.2 ++ e).

Definition run (sched : list nat) (c : state * list event)
  : state * list event :=
  foldl sched_step c sched.

(** The state [main] builds before the joins: [tcount.resize(n_threads, 0)],
    [sum.resize(n_threads, 0)] and one thread per index, started in
    [sum_dynamic(i)] when [dflag == 1] and in [sum_static(i, n_threads)]
    when [dflag == 0]. *)
Definition spawn (dflag : Z) (n_threads : Z) : state :=
  let n := Z.to_nat n_threads in
  {| counter := rows;
     tcount := replicate n 0;
     sum := replicate n 0;
     threads :=
       if dflag =? 1 then replicate n DynLock
       else if dflag =? 0 then
         (λ i : nat, StaticLoop (to_int (Z.of_nat i)) (to_int n_threads))
           <$> seq 0 n
       else [] |}.

(** [threads.at(i)->join()] returns for every [i < n_threads]. *)
Definition joined (n_threads : Z) (s : state) : bool :=
  forallb (λ i : nat, match threads s !! i with
                      | Some Exited => true
                      | _ => false
                      end) (seq 0 (Z.to_nat n_threads)).

(** [total_work += tcount.at(i)] for every [i < n_threads]. *)
Definition total_work (n_threads : Z) (s : state) : Z :=
  foldl (λ acc (i : nat), to_int (acc + slot (tcount s) i)) 0
        (seq 0 (Z.to_nat n_threads)).

(** [for (uint64_t n : sum) gross_sum += n;] *)
Definition gross_sum (s : state) : Z :=
  foldl (λ acc n, to_u64 (acc + n)) 0 (sum s).

(** The serial reference: every element of the matrix added to one
    [uint64_t] accumulator, row after row. *)
Definition reference_sum : Z := foldl sum_row 0 (seqZ 0 rows).

(** A row, and a list of rows, as the addends the accumulator receives:
    every element cast to [uint64_t], the additions not yet reduced. *)
Definition cast_row (i : Z) : Z :=
  foldr (λ j a, to_u64 (work i j) + a) 0 (seqZ 0 cols).
Definition cast_rows (l : list Z) : Z :=
  foldr (λ i a, cast_row i + a) 0 l.

(** The same total in unbounded integers. *)
Definition exact_row (i : Z) : Z :=
  foldr (λ j a, work i j + a) 0 (seqZ 0 cols).
Definition exact_rows (l : list Z) : Z :=
  foldr (λ i a, exact_row i + a) 0 l.
Definition exact_total : Z := exact_rows (seqZ 0 rows).

End Reduce.

(** ** Reading a run *)

(** The row indices handed out under the lock, oldest first. *)
Definition claimed (tr : list event) : list Z :=
  omap (λ e, match e with Claimed _ r => Some r | Summed _ _ => None end) tr.

(** The rows added to some slot, with the thread that added them. *)
Definition summed (tr : list event) : list (nat * Z) :=
  omap (λ e, match e with Summed t r => Some (t, r) | Claimed _ _ => None end) tr.

(** The rows thread [tid] added to its slot, in the order it did. *)
Definition rows_of (tid : nat) (tr : list event) : list Z :=
  (filter (λ p, p.1 = tid) (summed tr)).*2.

(** The rows a thread of [sum_dynamic] holds between the unlock and the
    end of the row loop. *)
Definition in_flight (ths : list local) : list Z :=
  omap (λ l, match l with DynSum r => Some r | _ => None end) ths.

(** The row a single thread holds in flight, if any. *)
Definition flight (l : local) : list Z :=
  match l with DynSum r => [r] | _ => [] end.

(** The longest prefix of [l] whose elements all pass [p]. *)
Fixpoint take_while {A} (p : A → bool) (l : list A) : list A :=
  match l with
  | [] => []
  | x :: l' => if p x then x :: take_while p l' else []
  end.

(** The static assignment in the words of the specification: [tid],
    [tid + n], [tid + 2n], ... for as long as the index is below [rows]. *)
Definition stride_rows (tid n : Z) : list Z :=
  take_while (λ r, r <? rows) ((λ k, tid + k * n) <$> seqZ 0 rows).

(** ** Command line *)

(** One return of [getopt(argc, argv, "dt:")] other than the final [-1]:
    the option character and, for [-t], the text [optarg] points to. *)
Record getopt_result := Getopt { opt : ascii; optarg : string }.

Definition isspace (c : ascii) : bool :=
  let n := nat_of_ascii c in
  (n =? 32)%nat || ((9 <=? n)%nat && (n <=? 13)%nat).

Definition digit (c : ascii) : option Z :=
  let n := Z.of_nat (nat_of_ascii c) in
  if (48 <=? n) && (n <=? 57) then Some (n - 48) else None.

Fixpoint skip_spaces (s : string) : string :=
  match s with
  | String c s' => if isspace c then skip_spaces s' else s
  | EmptyString => s
  end.

Fixpoint digits (acc : Z) (s : string) : Z :=
  match s with
  | String c s' =>
      match digit c with
      | Some d => digits (10 * acc + d) s'
      | None => acc
      end
  | EmptyString => acc
  end.

(** [long] is 64 bits wide; [strtol] answers a number outside it with
    [LONG_MAX] or [LONG_MIN]. *)
Definition long_min : Z := Eval cbv in - 2 ^ 63.
Definition long_max : Z := Eval cbv in 2 ^ 63 - 1.

Definition to_long_sat (z : Z) : Z := Z.max long_min (Z.min long_max z).

(** [atoi] of the C library, [(int) strtol (s, NULL, 10)]: white space, an
    optional sign, then the longest run of decimal digits; no digits give
    0; the [long] that results is cut down to [int]. *)
Definition atoi (s : string) : Z :=
  match skip_spaces s with
  | String "-" s' => to_int (to_long_sat (- digits 0 s'))
  | String "+" s' => to_int (to_long_sat (digits 0 s'))
  | s' => to_int (to_long_sat (digits 0 s'))
  end.

(** The locals of [main] the option loop writes, and the lines it sends
    to [std::cerr]. *)
Record options := Options { dflag : Z; n_threads : Z; err : list string }.

Definition usage : list string :=
  [ "Usage: reduce [-d] [-t num]";
    String (ascii_of_nat 9) "-d Use dynamic load-balancing.";
    String (ascii_of_nat 9) "-t Specify the number of threads to use" ]%string.

(** The body of [switch (opt)]; [hw] is
    [std::thread::hardware_concurrency()]. *)
Definition option_case (hw : Z) (o : options) (g : getopt_result) : options :=
  if decide (opt g = "d"%char) then
    {| dflag := 1; n_threads := n_threads o; err := err o |}
  else if decide (opt g = "t"%char) then
    let n := to_uint (atoi (optarg g)) in
    {| dflag := dflag o;
       n_threads := if hw <? n then hw else n;
       err := err o |}
  else if decide (opt g = "?"%char) then
    {| dflag := -1; n_threads := n_threads o; err := err o ++ usage |}
  else o.

Definition parse_options (hw : Z) (opts : list getopt_result) : options :=
  foldl (option_case hw) {| dflag := 0; n_threads := 2; err := [] |} opts.

(** The [optarg] of the last [-t] that [getopt] returned. *)
Definition last_t (opts : list getopt_result) : option string :=
  foldl (λ r g, if decide (opt g = "t"%char) then Some (optarg g) else r)
        None opts.

(** What a finished process leaves behind: the lines on [std::cerr], the
    [total_work] and [gross_sum] of the last line on [std::cout] when the
    guarded block ran, and the exit status. *)
Record outcome := Outcome {
  stderr : list string;
  report : option (Z * Z);
  status : Z
}.

(** [main] under a schedule for its threads, from the option loop to
    [return 0]; the progress lines on [std::cout] are left out.  [None]
    stands for a schedule that leaves some [join] waiting. *)
Definition main (work : Z → Z → Z) (hw : Z) (opts : list getopt_result)
    (sched : list nat) : option outcome :=
  let o := parse_options hw opts in
  if dflag o =? -1 then
    Some {| stderr := err o; report := None; status := 0 |}
  else
    let s := (run work sched (spawn (dflag o) (n_threads o), [])).1 in
    if joined (n_threads o) s then
      Some {| stderr := err o;
              report := Some (total_work (n_threads o) s, gross_sum s);
              status := 0 |}
    else None.

(** ** Worker counts and invariants of a run *)

(** The worker counts for which [i += num_threads] stays inside [int]
    while [i < rows]. *)
Definition valid_threads (n : Z) : Prop := 1 ≤ n ∧ n + rows ≤ int_max.

(** The two values of [dflag] under which threads are started. *)
Definition is_mode (dflag : Z) : Prop := dflag = 0 ∨ dflag = 1.

Section Invariants.

Variable work : Z → Z → Z.

(** Every slot holds what its thread has added so far, and only threads
    of the pool have added anything. *)
Definition slots_inv (n : nat) (c : state * list event) : Prop :=
  length (threads c.1) = n ∧
  tcount c.1
    = (λ t, to_int (Z.of_nat (length (rows_of t c.2)))) <$> seq 0 n ∧
  sum c.1 = (λ t, to_u64 (cast_rows work (rows_of t c.2))) <$> seq 0 n ∧
  Forall (λ p, (p.1 < n)%nat) (summed c.2).

(** A thread of [sum_static] after [k] turns of its loop. *)
Definition static_local (n : Z) (tid : nat) (tr : list event) (l : local)
  : Prop :=
  ∃ k : Z, 0 ≤ k ∧
    rows_of tid tr = (λ j, Z.of_nat tid + j * n) <$> seqZ 0 k ∧
    (0 < k → Z.of_nat tid + (k - 1) * n < rows) ∧
    (l = StaticLoop (Z.of_nat tid + k * n) n
     ∨ (l = Exited ∧ rows ≤ Z.of_nat tid + k * n)).

Definition static_inv (n : Z) (c : state * list event) : Prop :=
  ∀ tid l, threads c.1 !! tid = Some l → static_local n tid c.2 l.

(** A thread of [sum_dynamic] has only returned once [counter] was 0. *)
Definition dynamic_local (c : Z) (l : local) : Prop :=
  match l with
  | StaticLoop _ _ => False
  | Exited => c = 0
  | DynLock | DynSum _ => True
  end.

Definition dynamic_inv (c : state * list event) : Prop :=
  0 ≤ counter c.1 ≤ rows ∧
  claimed c.2 = reverse (seqZ (counter c.1) (rows - counter c.1)) ∧
  (summed c.2).*2 ++ in_flight (threads c.1) ≡ₚ claimed c.2 ∧
  Forall (dynamic_local (counter c.1)) (threads c.1).

Definition run_inv (dflag n : Z) (c : state * list event) : Prop :=
  slots_inv (Z.to_nat n) c ∧
  ((dflag = 1 ∧ dynamic_inv c) ∨ (dflag = 0 ∧ static_inv n c)).

End Invariants.

(** Steps a thread still has to take, at most. *)
Definition weight (l : local) : nat :=
  match l with
  | StaticLoop i _ => S (Z.to_nat (rows - i))
  | DynLock => 1
  | DynSum _ => 2
  | Exited => 0
  end.

Definition fuel (s : state) : nat :=
  (2 * Z.to_nat (counter s) + sum_list_with weight (threads s))%nat.

(** ** Sample inputs *)

(** A matrix whose elements reach the top of the range of [rand()]. *)
Definition sample_work (i j : Z) : Z := (i * cols + j) * 21474.

(** The schedule that lets each of [n] threads in turn take [k] steps. *)
Definition turns (n k : nat) : list nat := t ← seq 0 n; replicate k t.

(** The schedule that goes [k] times round the [n] threads, one step
    each. *)
Definition round_robin (n k : nat) : list nat := mjoin (replicate k (seq 0 n)).

(** * Proofs *)

(** ** Wrap-around arithmetic *)

Lemma to_int_id z : int_min ≤ z ≤ int_max → to_int z = z.
Proof.
  unfold to_int, int_min, int_max, uint_modulus. intros Hz.
  rewrite Z.mod_small by lia. lia.
Qed.

Lemma to_int_add a b : to_int (to_int a + b) = to_int (a + b).
Proof.
  unfold to_int, int_min, uint_modulus. f_equal.
  replace ((a - -2147483648) `mod` 4294967296 + -2147483648 + b - -2147483648)
    with ((a - -2147483648) `mod` 4294967296 + b) by lia.
  rewrite Zplus_mod_idemp_l. f_equal. lia.
Qed.

Lemma to_u64_range z : 0 ≤ to_u64 z < u64_modulus.
Proof. unfold to_u64, u64_modulus. apply Z.mod_pos_bound. lia. Qed.

Lemma to_u64_id z : 0 ≤ z < u64_modulus → to_u64 z = z.
Proof. unfold to_u64. apply Z.mod_small. Qed.

Lemma to_u64_idemp z : to_u64 (to_u64 z) = to_u64 z.
Proof. apply to_u64_id, to_u64_range. Qed.

Lemma to_u64_add_l a b : to_u64 (to_u64 a + b) = to_u64 (a + b).
Proof. unfold to_u64. apply Zplus_mod_idemp_l. Qed.

Lemma to_u64_add_r a b : to_u64 (a + to_u64 b) = to_u64 (a + b).
Proof. unfold to_u64. apply Zplus_mod_idemp_r. Qed.

Lemma rows_eq : rows = 1000.
Proof. reflexivity. Qed.

Lemma cols_eq : cols = 100.
Proof. reflexivity. Qed.

(** ** Sums of rows *)

Section Sums.

Variable work : Z → Z → Z.

Lemma foldl_cast (g : Z → Z) l acc :
  foldl (λ a j, to_u64 (a + to_u64 (g j))) (to_u64 acc) l
  = to_u64 (acc + foldr (λ j a, to_u64 (g j) + a) 0 l).
Proof.
  revert acc. induction l as [|j l IH]; intros acc; simpl.
  - by rewrite Z.add_0_r.
  - rewrite to_u64_add_l, IH. f_equal. lia.
Qed.

Lemma sum_row_cast acc i :
  sum_row work (to_u64 acc) i = to_u64 (acc + cast_row work i).
Proof. apply (foldl_cast (work i)). Qed.

Lemma foldl_sum_row l acc :
  foldl (sum_row work) (to_u64 acc) l = to_u64 (acc + cast_rows work l).
Proof.
  revert acc. induction l as [|i l IH]; intros acc; simpl.
  - by rewrite Z.add_0_r.
  - rewrite sum_row_cast, IH. f_equal. lia.
Qed.

Lemma reference_sum_cast :
  reference_sum work = to_u64 (cast_rows work (seqZ 0 rows)).
Proof.
  unfold reference_sum. change 0 with (to_u64 0) at 1.
  by rewrite foldl_sum_row.
Qed.

Lemma cast_rows_app l k :
  cast_rows work (l ++ k) = cast_rows work l + cast_rows work k.
Proof. induction l as [|i l IH]; simpl; lia. Qed.

Lemma cast_rows_perm l k : l ≡ₚ k → cast_rows work l = cast_rows work k.
Proof. induction 1; simpl; lia. Qed.

Lemma cast_rows_bind {A} (g : A → list Z) (ts : list A) :
  cast_rows work (ts ≫= g) = foldr (λ t a, cast_rows work (g t) + a) 0 ts.
Proof.
  induction ts as [|t ts IH]; [done|].
  by rewrite bind_cons, cast_rows_app, IH.
Qed.

(** With every element in the range of [rand()] the casts and the
    reductions are the identity. *)
Hypothesis work_range :
  ∀ i j, 0 ≤ i < rows → 0 ≤ j < cols → 0 ≤ work i j ≤ int_max.

Lemma row_prefix_exact i (l : list Z) :
  0 ≤ i < rows → Forall (λ j, 0 ≤ j < cols) l →
  foldr (λ j a, to_u64 (work i j) + a) 0 l
  = foldr (λ j a, work i j + a) 0 l
  ∧ 0 ≤ foldr (λ j a, work i j + a) 0 l ≤ Z.of_nat (length l) * int_max.
Proof.
  intros Hi. induction 1 as [|j l Hj _ [IH1 IH2]]; simpl length; simpl foldr.
  - lia.
  - specialize (work_range i j Hi Hj). rewrite IH1, to_u64_id.
    + unfold int_max in *. lia.
    + unfold int_max, u64_modulus in *. lia.
Qed.

Lemma cols_in_range : Forall (λ j, 0 ≤ j < cols) (seqZ 0 cols).
Proof. apply Forall_seqZ. lia. Qed.

Lemma cast_row_exact i : 0 ≤ i < rows → cast_row work i = exact_row work i.
Proof. intros Hi. apply (row_prefix_exact i _ Hi cols_in_range). Qed.

Lemma exact_row_bound i :
  0 ≤ i < rows → 0 ≤ exact_row work i ≤ cols * int_max.
Proof.
  intros Hi. pose proof (row_prefix_exact i _ Hi cols_in_range) as [_ H].
  rewrite length_seqZ in H. unfold exact_row.
  rewrite cols_eq in *. unfold int_max in *. lia.
Qed.

Lemma cast_rows_exact l :
  Forall (λ i, 0 ≤ i < rows) l → cast_rows work l = exact_rows work l.
Proof.
  induction 1 as [|i l Hi _ IH]; simpl; [done|].
  by rewrite IH, cast_row_exact.
Qed.

Lemma exact_rows_bound l :
  Forall (λ i, 0 ≤ i < rows) l →
  0 ≤ exact_rows work l ≤ Z.of_nat (length l) * (cols * int_max).
Proof.
  induction 1 as [|i l Hi _ IH]; simpl length; simpl exact_rows; [lia|].
  pose proof (exact_row_bound i Hi). rewrite cols_eq in *.
  unfold int_max in *. lia.
Qed.

End Sums.

(** ** Reading a run *)

Lemma claimed_app tr e : claimed (tr ++ e) = claimed tr ++ claimed e.
Proof. apply omap_app. Qed.

Lemma summed_app tr e : summed (tr ++ e) = summed tr ++ summed e.
Proof. apply omap_app. Qed.

Lemma rows_of_app t tr e : rows_of t (tr ++ e) = rows_of t tr ++ rows_of t e.
Proof. unfold rows_of. by rewrite summed_app, filter_app, fmap_app. Qed.

Lemma rows_of_summed t tid r :
  rows_of t [Summed tid r] = if decide (tid = t) then [r] else [].
Proof.
  unfold rows_of. simpl. rewrite filter_cons. simpl.
  by destruct (decide (tid = t)).
Qed.

Lemma bind_split {A B} (f g h : A → list B) ts :
  (∀ t, f t = g t ++ h t) → ts ≫= f ≡ₚ (ts ≫= g) ++ (ts ≫= h).
Proof.
  intros Hf. induction ts as [|t ts IH]; [done|].
  rewrite !bind_cons, Hf, IH.
  rewrite <- !(assoc_L (++)). f_equiv.
  rewrite !(assoc_L (++)). f_equiv. apply Permutation_app_comm.
Qed.

Lemma bind_pick_out {B} (x : nat) (y : B) ts :
  x ∉ ts → ts ≫= (λ t, if decide (x = t) then [y] else []) = [].
Proof.
  induction ts as [|t ts IH]; [done|].
  intros [? ?]%not_elem_of_cons. rewrite bind_cons, IH by done.
  by destruct (decide (x = t)).
Qed.

Lemma bind_pick {B} (x : nat) (y : B) ts :
  NoDup ts → x ∈ ts → ts ≫= (λ t, if decide (x = t) then [y] else []) = [y].
Proof.
  induction 1 as [|t ts Hnotin Hnd IH]; [by intros ?%elem_of_nil|].
  rewrite bind_cons. intros [->|Hin]%elem_of_cons.
  - rewrite bind_pick_out by done. by destruct (decide (t = t)).
  - rewrite IH by done. destruct (decide (x = t)) as [->|]; done.
Qed.

(** Sorting the rows by the thread that added them loses and repeats
    none. *)
Lemma bind_rows_of (n : nat) tr :
  Forall (λ p, (p.1 < n)%nat) (summed tr) →
  seq 0 n ≫= (λ t, rows_of t tr) ≡ₚ (summed tr).*2.
Proof.
  unfold rows_of. induction (summed tr) as [|p l IH]; intros Hl.
  - clear. induction (seq 0 n) as [|t ts IH]; [done|].
    by rewrite bind_cons, IH.
  - apply Forall_cons in Hl as [Hp Hl].
    rewrite (bind_split _ (λ t, if decide (p.1 = t) then [p.2] else [])
               (λ t, (filter (λ q, q.1 = t) l).*2)).
    + rewrite bind_pick, IH; [done|done|apply NoDup_seq|].
      apply elem_of_seq. lia.
    + intros t. rewrite filter_cons. by destruct (decide (p.1 = t)).
Qed.

(** ** Updating one entry of the thread pool *)

Lemma in_flight_insert ths tid l l' :
  ths !! tid = Some l →
  ∃ rest, in_flight ths ≡ₚ flight l ++ rest
          ∧ in_flight (<[tid := l']> ths) ≡ₚ flight l' ++ rest.
Proof.
  intros Hl.
  exists (in_flight (take tid ths) ++ in_flight (drop (S tid) ths)).
  pose proof (lookup_lt_Some _ _ _ Hl) as Hlt.
  pose proof (take_drop_middle ths tid l Hl) as Hmid.
  rewrite insert_take_drop by done.
  remember (take tid ths) as before. remember (drop (S tid) ths) as after.
  rewrite <- Hmid. unfold in_flight. rewrite !omap_app. simpl.
  split.
  - destruct l; simpl; try done. by rewrite Permutation_middle.
  - destruct l'; simpl; try done. by rewrite Permutation_middle.
Qed.

Lemma weight_insert ths tid l l' :
  ths !! tid = Some l →
  (sum_list_with weight (<[tid := l']> ths) + weight l
   = sum_list_with weight ths + weight l')%nat.
Proof.
  intros Hl. pose proof (lookup_lt_Some _ _ _ Hl) as Hlt.
  pose proof (take_drop_middle ths tid l Hl) as Hmid.
  rewrite insert_take_drop by done.
  remember (take tid ths) as before. remember (drop (S tid) ths) as after.
  rewrite <- Hmid, !sum_list_with_app. simpl. lia.
Qed.

(** ** Vectors indexed by thread *)

Lemma replicate_fmap_seq {B} (x : B) n j :
  replicate n x = (λ _ : nat, x) <$> seq j n.
Proof. revert j. induction n as [|n IH]; intros j; simpl; [done|]. by f_equal. Qed.

Lemma lookup_fmap_seq {B} (g : nat → B) (n t : nat) :
  (t < n)%nat → (g <$> seq 0 n) !! t = Some (g t).
Proof.
  intros Ht. rewrite list_lookup_fmap.
  by rewrite (proj2 (lookup_seq 0 n t t)).
Qed.

Lemma slot_fmap_seq (g : nat → Z) (n t : nat) :
  (t < n)%nat → slot (g <$> seq 0 n) t = g t.
Proof. intros Ht. unfold slot. by rewrite lookup_fmap_seq. Qed.

Lemma insert_fmap_seq {B} (g g' : nat → B) (n tid : nat) v :
  v = g' tid → (∀ t, t ≠ tid → g t = g' t) →
  <[tid := v]> (g <$> seq 0 n) = g' <$> seq 0 n.
Proof.
  intros -> Hg. apply list_eq. intros t.
  destruct (decide (t < n)%nat) as [Ht|Ht].
  - rewrite (lookup_fmap_seq g' n t Ht).
    destruct (decide (tid = t)) as [->|Hne].
    + rewrite list_lookup_insert_eq; [done|].
      by rewrite length_fmap, length_seq.
    + rewrite list_lookup_insert_ne, lookup_fmap_seq by done.
      f_equal. apply Hg. congruence.
  - rewrite !(proj2 (lookup_ge_None _ _)); [done| |].
    + rewrite length_fmap, length_seq. lia.
    + rewrite length_insert, length_fmap, length_seq. lia.
Qed.

(** ** One step of one thread *)

Section Steps.

Variable work : Z → Z → Z.

Lemma run_app sched sched' c :
  run work (sched ++ sched') c = run work sched' (run work sched c).
Proof. apply foldl_app. Qed.

(** A step either leaves the slots alone or adds one row to the slot of
    the thread that took it. *)
Lemma thread_step_slots tid s s' e :
  thread_step work tid s = (s', e) →
  length (threads s') = length (threads s) ∧
  ((tcount s' = tcount s ∧ sum s' = sum s ∧ summed e = []) ∨
   (∃ r, (tid < length (threads s))%nat ∧
         tcount s' = <[tid := to_int (slot (tcount s) tid + 1)]> (tcount s) ∧
         sum s' = <[tid := sum_row work (slot (sum s) tid) r]> (sum s) ∧
         summed e = [(tid, r)])).
Proof.
  unfold thread_step. destruct (threads s !! tid) as [l|] eqn:Hl.
  - pose proof (lookup_lt_Some _ _ _ Hl) as Hlt.
    destruct l as [i n| |r|].
    + unfold sum_static_step. destruct (i <? rows); intros [= <- <-]; simpl;
        rewrite length_insert; (split; [done|]); [right; eauto|left; done].
    + unfold sum_dynamic_lock. destruct (claim (counter s)) as [c []];
        intros [= <- <-]; simpl; rewrite length_insert; (split; [done|]);
        by left.
    + unfold sum_dynamic_row. intros [= <- <-]; simpl.
      rewrite length_insert. split; [done|]. right; eauto.
    + intros [= <- <-]. split; [done|]. by left.
  - intros [= <- <-]. split; [done|]. by left.
Qed.

Lemma slots_inv_step n c tid :
  slots_inv work n c → slots_inv work n (sched_step work c tid).
Proof.
  destruct c as [s tr]. unfold slots_inv, sched_step. simpl.
  intros (Hlen & Ht & Hs & Hlt).
  destruct (thread_step work tid s) as [s' e] eqn:Hstep. simpl.
  apply thread_step_slots in Hstep
    as (Hlen' & [(Ht' & Hs' & He)|(r & Htid & Ht' & Hs' & He)]).
  - assert (Hrows : ∀ t, rows_of t (tr ++ e) = rows_of t tr).
    { intros t. unfold rows_of. by rewrite summed_app, He, app_nil_r. }
    rewrite summed_app, He, app_nil_r, Ht', Hs', Hlen'.
    split_and!; try done.
    + rewrite Ht. apply list_fmap_ext. intros ? t _. by rewrite Hrows.
    + rewrite Hs. apply list_fmap_ext. intros ? t _. by rewrite Hrows.
  - assert (Hrows : ∀ t, rows_of t (tr ++ e)
                         = rows_of t tr ++ if decide (tid = t) then [r] else []).
    { intros t. unfold rows_of. rewrite summed_app, He, filter_app, fmap_app.
      f_equal. rewrite filter_cons. simpl. by destruct (decide (tid = t)). }
    rewrite Hlen in Htid.
    rewrite summed_app, He, Ht', Hs', Hlen'. split_and!; try done.
    + rewrite Ht. apply insert_fmap_seq.
      * rewrite slot_fmap_seq, Hrows by done.
        destruct (decide (tid = tid)); [|done].
        rewrite to_int_add, length_app. simpl. f_equal. lia.
      * intros t Hne. rewrite Hrows.
        destruct (decide (tid = t)); [congruence|]. by rewrite app_nil_r.
    + rewrite Hs. apply insert_fmap_seq.
      * rewrite slot_fmap_seq, Hrows by done.
        destruct (decide (tid = tid)); [|done].
        rewrite sum_row_cast, cast_rows_app. simpl. f_equal. lia.
      * intros t Hne. rewrite Hrows.
        destruct (decide (tid = t)); [congruence|]. by rewrite app_nil_r.
    + apply Forall_app. split; [done|]. by repeat constructor.
Qed.

End Steps.

Section Modes.

Variable work : Z → Z → Z.

(** Events carry the identifier of the thread that stepped. *)
Lemma thread_step_rows_of tid t s s' e :
  thread_step work tid s = (s', e) → t ≠ tid → rows_of t e = [].
Proof.
  intros Hstep Hne.
  apply thread_step_slots in Hstep as (_ & [(_ & _ & He)|(r & _ & _ & _ & He)]);
    unfold rows_of; rewrite He; [done|].
  rewrite filter_cons. simpl. by destruct (decide (tid = t)); [congruence|].
Qed.

Lemma thread_step_threads tid t s s' e :
  thread_step work tid s = (s', e) → t ≠ tid →
  threads s' !! t = threads s !! t.
Proof.
  unfold thread_step, sum_static_step, sum_dynamic_lock, sum_dynamic_row.
  intros Hstep Hne.
  destruct (threads s !! tid) as [[i n| |r|]|];
    repeat match type of Hstep with
           | context [if ?b then _ else _] => destruct b
           | context [claim ?c] => destruct (claim c) as [? []]
           end;
    injection Hstep as <- <-; simpl; try done;
    by rewrite list_lookup_insert_ne.
Qed.

Lemma static_local_ext n tid tr tr' l :
  rows_of tid tr' = rows_of tid tr →
  static_local n tid tr l → static_local n tid tr' l.
Proof. intros Heq (k & ?). exists k. by rewrite Heq. Qed.

Lemma static_inv_step n c tid :
  valid_threads n → static_inv n c → static_inv n (sched_step work c tid).
Proof.
  intros [Hn1 Hn2]. destruct c as [s tr]. unfold static_inv, sched_step.
  simpl. intros Hinv.
  destruct (thread_step work tid s) as [s' e] eqn:Hstep. simpl.
  intros t l Hl. destruct (decide (t = tid)) as [->|Hne].
  - revert Hstep Hl. unfold thread_step.
    destruct (threads s !! tid) as [l0|] eqn:Hl0.
    + pose proof (lookup_lt_Some _ _ _ Hl0) as Hlt.
      destruct (Hinv _ _ Hl0) as (k & Hk & Hrows & Hlast & [->|[-> Hge]]).
      * unfold sum_static_step.
        destruct (Z.ltb_spec (Z.of_nat tid + k * n) rows) as [Hlt'|Hge];
          intros [= <- <-]; simpl; rewrite list_lookup_insert_eq by done;
          intros [= <-].
        -- exists (k + 1). split; [lia|].
           rewrite rows_of_app, rows_of_summed, Hrows.
           destruct (decide (tid = tid)); [|done].
           rewrite seqZ_app, fmap_app by lia. split_and!.
           ++ f_equal.
           ++ intros _. by replace (k + 1 - 1) with k by lia.
           ++ left. rewrite to_int_id; [f_equal; lia|].
              unfold int_min, int_max in *. nia.
        -- exists k. rewrite app_nil_r. split_and!; try done. by right.
      * intros [= <- <-]. rewrite Hl0. intros [= <-].
        exists k. rewrite app_nil_r. split_and!; try done. by right.
    + intros [= <- <-]. by rewrite Hl0.
  - rewrite (thread_step_threads _ _ _ _ _ Hstep Hne) in Hl.
    eapply static_local_ext; [|by apply Hinv].
    by rewrite rows_of_app, (thread_step_rows_of _ _ _ _ _ Hstep Hne), app_nil_r.
Qed.

Lemma claim_spec c :
  0 ≤ c ≤ rows →
  claim c = if decide (0 < c) then (c - 1, false) else (0, true).
Proof.
  intros Hc. unfold claim. rewrite rows_eq in Hc.
  destruct (Z.ltb_spec 0 c); destruct (decide (0 < c)); try lia.
  - rewrite to_int_id; [done|]. unfold int_min, int_max. lia.
  - f_equal. lia.
Qed.

Lemma dynamic_inv_step c tid :
  dynamic_inv c → dynamic_inv (sched_step work c tid).
Proof.
  destruct c as [s tr]. unfold dynamic_inv, sched_step. simpl.
  intros (Hc & Hcl & Hperm & Hths). unfold thread_step.
  destruct (threads s !! tid) as [l|] eqn:Hl; simpl;
    [|by rewrite app_nil_r].
  pose proof (Forall_lookup_1 _ _ _ _ Hths Hl) as Hdl.
  destruct l as [i n| |r|]; simpl in Hdl; [done| | |by rewrite app_nil_r].
  - unfold sum_dynamic_lock. rewrite claim_spec by done.
    destruct (in_flight_insert (threads s) tid DynLock
                (if decide (0 < counter s) then DynSum (counter s - 1)
                 else Exited) Hl) as (rest & Hold & Hnew).
    destruct (decide (0 < counter s)) as [Hpos|Hzero]; simpl.
    + refine (conj _ (conj _ (conj _ _))).
      * lia.
      * rewrite claimed_app, Hcl. simpl.
        replace (rows - (counter s - 1)) with (1 + (rows - counter s)) by lia.
        rewrite seqZ_app by lia. simpl. rewrite reverse_cons.
        replace (counter s - 1 + 1) with (counter s) by lia.
        do 2 f_equal.
      * rewrite summed_app, claimed_app. simpl. rewrite app_nil_r.
        rewrite Hnew, <- Hperm, Hold. simpl.
        rewrite <- Permutation_middle, <- Permutation_cons_append.
        done.
      * apply Forall_insert; [|done].
        eapply Forall_impl; [done|]. intros [] Hx; simpl in *; try done. lia.
    + assert (counter s = 0) as Hc0 by lia.
      rewrite !app_nil_r. rewrite Hc0 in *.
      refine (conj Hc (conj Hcl (conj _ _))).
      * by rewrite Hnew, <- Hperm, Hold.
      * by apply Forall_insert.
  - unfold sum_dynamic_row. simpl.
    destruct (in_flight_insert (threads s) tid (DynSum r) DynLock Hl)
      as (rest & Hold & Hnew).
    refine (conj Hc (conj _ (conj _ _))).
    + by rewrite claimed_app, app_nil_r.
    + rewrite summed_app, claimed_app, fmap_app. simpl. rewrite app_nil_r.
      rewrite Hnew, <- Hperm, Hold. simpl.
      rewrite <- (assoc_L (++)). f_equiv. done.
    + by apply Forall_insert.
Qed.

End Modes.

(** ** Whole runs *)

Lemma in_flight_replicate n l : flight l = [] → in_flight (replicate n l) = [].
Proof.
  intros Hl. induction n as [|n IH]; simpl; [done|].
  unfold in_flight in *. simpl. rewrite IH. by destruct l.
Qed.

Lemma forallb_false {A} (f : A → bool) l :
  forallb f l = false → ∃ x, x ∈ l ∧ f x = false.
Proof.
  induction l as [|x l IH]; simpl; [done|].
  destruct (f x) eqn:Hx; simpl.
  - intros (y & ? & ?)%IH. exists y. split; [by right|done].
  - intros _. exists x. split; [by left|done].
Qed.

Lemma forallb_true {A} (f : A → bool) l x :
  forallb f l = true → x ∈ l → f x = true.
Proof.
  induction l as [|y l IH]; simpl; [by intros _ ?%elem_of_nil|].
  intros [? ?]%andb_prop [->|?]%elem_of_cons; auto.
Qed.

Section Runs.

Variable work : Z → Z → Z.
Variables dflag n : Z.
Hypothesis Hvalid : valid_threads n.

Lemma to_int_tid (t : nat) : (t < Z.to_nat n)%nat → to_int (Z.of_nat t) = Z.of_nat t.
Proof.
  destruct Hvalid as [? ?]. intros ?. apply to_int_id.
  rewrite rows_eq in *. unfold int_min, int_max in *. lia.
Qed.

Lemma run_inv_spawn :
  is_mode dflag → run_inv work dflag n (spawn dflag n, []).
Proof.
  destruct Hvalid as [Hn1 Hn2]. intros Hmode. split.
  - unfold slots_inv, spawn. simpl. split_and!.
    + destruct Hmode as [-> | ->]; simpl.
      * by rewrite length_fmap, length_seq.
      * by rewrite length_replicate.
    + apply (replicate_fmap_seq 0 _ 0%nat).
    + apply (replicate_fmap_seq 0 _ 0%nat).
    + constructor.
  - destruct Hmode as [-> | ->]; [right|left]; (split; [done|]).
    + intros tid l. unfold spawn. simpl. rewrite list_lookup_fmap.
      destruct (seq 0 (Z.to_nat n) !! tid) as [t|] eqn:Ht; [|done].
      apply lookup_seq in Ht as [-> Ht]. simpl. intros [= <-].
      exists 0. split_and!; [done|done|lia|]. left.
      rewrite to_int_tid by done. rewrite to_int_id; [f_equal; lia|].
      rewrite rows_eq in *. unfold int_min, int_max in *. lia.
    + unfold dynamic_inv, spawn. simpl. split_and!.
      * rewrite rows_eq. lia.
      * lia.
      * by rewrite Z.sub_diag.
      * by rewrite in_flight_replicate.
      * by apply Forall_replicate.
Qed.

Lemma run_inv_step c tid :
  run_inv work dflag n c → run_inv work dflag n (sched_step work c tid).
Proof.
  intros [Hslots Hmode]. split; [by apply slots_inv_step|].
  destruct Hmode as [[-> ?]|[-> ?]]; [left|right]; (split; [done|]).
  - by apply dynamic_inv_step.
  - by apply static_inv_step.
Qed.

Lemma run_inv_run sched c :
  run_inv work dflag n c → run_inv work dflag n (run work sched c).
Proof.
  revert c. induction sched as [|tid sched IH]; intros c Hc; [done|].
  apply IH. by apply run_inv_step.
Qed.

(** Every state a schedule can reach from [spawn]. *)
Lemma run_inv_reach sched :
  is_mode dflag → run_inv work dflag n (run work sched (spawn dflag n, [])).
Proof. intros ?. by apply run_inv_run, run_inv_spawn. Qed.

Lemma joined_exited s tid :
  joined n s = true → (tid < Z.to_nat n)%nat → threads s !! tid = Some Exited.
Proof.
  unfold joined. intros Hall Htid.
  apply (forallb_true _ _ tid) in Hall; [|apply elem_of_seq; lia].
  simpl in Hall. by destruct (threads s !! tid) as [[]|].
Qed.

Lemma not_joined_running s :
  length (threads s) = Z.to_nat n → joined n s = false →
  ∃ tid l, threads s !! tid = Some l ∧ l ≠ Exited.
Proof.
  unfold joined. intros Hlen (tid & Htid & Hrun)%forallb_false.
  apply elem_of_seq in Htid.
  destruct (lookup_lt_is_Some_2 (threads s) tid) as [l Hl]; [lia|].
  exists tid, l. split; [done|]. intros ->. simpl in Hrun.
  by rewrite Hl in Hrun.
Qed.

End Runs.

(** ** The stride of a static thread *)

Lemma take_while_app_stop {A} (p : A → bool) l1 l2 :
  Forall (λ x, p x = true) l1 →
  (∀ x, head l2 = Some x → p x = false) →
  take_while p (l1 ++ l2) = l1.
Proof.
  intros Hl1 Hl2. induction Hl1 as [|x l1 Hx _ IH]; simpl.
  - destruct l2 as [|y l2]; simpl; [done|]. by rewrite (Hl2 y).
  - by rewrite Hx, IH.
Qed.

Section Stride.

Variables tid n k : Z.
Hypothesis Hn : 1 ≤ n.
Hypothesis Htid : 0 ≤ tid.
Hypothesis Hk : 0 ≤ k.
Hypothesis Hlast : 0 < k → tid + (k - 1) * n < rows.
Hypothesis Hstop : rows ≤ tid + k * n.

Lemma stride_turns : k ≤ rows.
Proof. rewrite rows_eq in *. nia. Qed.

Lemma stride_rows_closed :
  stride_rows tid n = (λ j, tid + j * n) <$> seqZ 0 k.
Proof.
  pose proof stride_turns as Hle. unfold stride_rows.
  replace (seqZ 0 rows) with (seqZ 0 (k + (rows - k))) by (f_equal; lia).
  rewrite seqZ_app, fmap_app by lia.
  apply take_while_app_stop.
  - apply Forall_fmap, Forall_seqZ. intros j Hj. simpl.
    apply Z.ltb_lt. nia.
  - destruct (decide (0 < rows - k)) as [Hpos|Hneg].
    + rewrite seqZ_cons by done. simpl. intros ? [= <-].
      apply Z.ltb_ge. lia.
    + rewrite seqZ_nil by lia. done.
Qed.

Lemma stride_elem r :
  tid < n →
  r ∈ (λ j, tid + j * n) <$> seqZ 0 k ↔ 0 ≤ r < rows ∧ r `mod` n = tid.
Proof.
  intros Hlt. rewrite list_elem_of_fmap. split.
  - intros (j & -> & Hj%elem_of_seqZ). split; [nia|].
    rewrite Z.mod_add by lia. apply Z.mod_small. lia.
  - intros [Hr Hmod]. exists (r `div` n).
    pose proof (Z.div_mod r n) as Hdiv.
    pose proof (Z.div_pos r n) as Hpos.
    split; [lia|]. apply elem_of_seqZ. split; [lia|]. nia.
Qed.

Lemma stride_NoDup : NoDup ((λ j, tid + j * n) <$> seqZ 0 k).
Proof.
  apply NoDup_fmap_2_strong; [|apply NoDup_seqZ].
  intros x y _ _ Hxy. nia.
Qed.

End Stride.

(** ** Runs in which every thread has returned *)

Lemma in_flight_exited ths :
  (∀ t l, ths !! t = Some l → l = Exited) → in_flight ths = [].
Proof.
  induction ths as [|l ths IH]; intros Hall; [done|].
  unfold in_flight in *. simpl.
  rewrite (Hall 0%nat l) by done. apply IH.
  intros t l' Hl'. by apply (Hall (S t)).
Qed.

Section Finished.

Variable work : Z → Z → Z.
Variables dflag n : Z.
Hypothesis Hvalid : valid_threads n.
Variables (s : state) (tr : list event).
Hypothesis Hinv : run_inv work dflag n (s, tr).

(** The slots at any point of a run. *)
Lemma total_work_length :
  total_work n s = to_int (Z.of_nat (length (summed tr))).
Proof.
  destruct Hinv as [(Hlen & Ht & Hs & Hlt) _]. simpl in *.
  unfold total_work. rewrite Ht.
  rewrite <- (length_fmap snd (summed tr)).
  rewrite <- (Permutation_length (bind_rows_of _ _ Hlt)).
  assert (Hgen : ∀ l a, Forall (λ t, (t < Z.to_nat n)%nat) l →
    foldl (λ acc i,
             to_int (acc + slot ((λ t, to_int (Z.of_nat (length (rows_of t tr))))
                                   <$> seq 0 (Z.to_nat n)) i)) (to_int a) l
    = to_int (a + Z.of_nat (length (l ≫= (λ t, rows_of t tr))))).
  { induction l as [|t l IH]; intros a Hl.
    - simpl. by rewrite Z.add_0_r.
    - apply Forall_cons in Hl as [Ht' Hl]. simpl foldl.
      rewrite slot_fmap_seq by done.
      rewrite to_int_add, (Z.add_comm a), to_int_add, IH by done.
      rewrite bind_cons, length_app. f_equal. lia. }
  specialize (Hgen (seq 0 (Z.to_nat n)) 0).
  rewrite Z.add_0_l in Hgen. apply Hgen, Forall_seq. lia.
Qed.

Lemma gross_sum_cast :
  gross_sum s = to_u64 (cast_rows work (summed tr).*2).
Proof.
  destruct Hinv as [(Hlen & Ht & Hs & Hlt) _]. simpl in *.
  unfold gross_sum. rewrite Hs.
  rewrite <- (cast_rows_perm _ _ _ (bind_rows_of _ _ Hlt)).
  assert (Hgen : ∀ (l : list nat) a,
    foldl (λ acc x, to_u64 (acc + x)) (to_u64 a)
          ((λ t, to_u64 (cast_rows work (rows_of t tr))) <$> l)
    = to_u64 (a + cast_rows work (l ≫= (λ t, rows_of t tr)))).
  { induction l as [|t l IH]; intros a.
    - simpl. by rewrite Z.add_0_r.
    - rewrite fmap_cons. simpl foldl.
      rewrite to_u64_add_l, to_u64_add_r, IH.
      rewrite bind_cons, cast_rows_app. f_equal. lia. }
  specialize (Hgen (seq 0 (Z.to_nat n)) 0).
  rewrite Z.add_0_l in Hgen. apply Hgen.
Qed.

Hypothesis Hjoined : joined n s = true.

Lemma static_finished (t : nat) :
  dflag = 0 → (t < Z.to_nat n)%nat →
  ∃ k, 0 ≤ k ∧ rows_of t tr = (λ j, Z.of_nat t + j * n) <$> seqZ 0 k ∧
       (0 < k → Z.of_nat t + (k - 1) * n < rows) ∧
       rows ≤ Z.of_nat t + k * n.
Proof.
  intros -> Ht. destruct Hinv as [_ [[? _]|[_ Hst]]]; [done|].
  pose proof (joined_exited _ _ _ Hjoined Ht) as Hex.
  destruct (Hst _ _ Hex) as (k & ? & ? & ? & [?|[_ ?]]); [done|].
  by exists k.
Qed.

Lemma static_rows (t : nat) :
  dflag = 0 → (t < Z.to_nat n)%nat →
  rows_of t tr = stride_rows (Z.of_nat t) n.
Proof.
  intros Hd Ht. destruct (static_finished t Hd Ht) as (k & ? & -> & ? & ?).
  destruct Hvalid. symmetry. apply stride_rows_closed; lia.
Qed.

Lemma dynamic_drained : dflag = 1 → counter s = 0 ∧ in_flight (threads s) = [].
Proof.
  intros ->. destruct Hvalid as [Hn1 _].
  destruct Hinv as [(Hlen & _) [[_ (_ & _ & _ & Hths)]|[? _]]]; [|done].
  simpl in *. split.
  - assert (H0 : (0 < Z.to_nat n)%nat) by lia.
    pose proof (joined_exited _ _ _ Hjoined H0) as Hex.
    apply (Forall_lookup_1 _ _ _ _ Hths Hex).
  - apply in_flight_exited. intros t l Hl.
    pose proof (lookup_lt_Some _ _ _ Hl) as Hlt. rewrite Hlen in Hlt.
    rewrite (joined_exited _ _ _ Hjoined Hlt) in Hl. congruence.
Qed.

(** Every row has been added to a slot, once. *)
Lemma all_rows_summed : (summed tr).*2 ≡ₚ seqZ 0 rows.
Proof.
  destruct Hvalid as [Hn1 Hn2].
  destruct Hinv as [(Hlen & _ & _ & Hlt) [[Hd Hdyn]|[Hd Hst]]]; simpl in *.
  - destruct (dynamic_drained Hd) as [Hc Hfl].
    destruct Hdyn as (_ & Hcl & Hperm & _). simpl in *.
    rewrite Hfl, app_nil_r, Hcl, Hc, Z.sub_0_r in Hperm.
    by rewrite Hperm, reverse_Permutation.
  - rewrite <- (bind_rows_of _ _ Hlt).
    assert (Hin : ∀ (t : nat) r, t ∈ seq 0 (Z.to_nat n) →
              r ∈ rows_of t tr ↔ 0 ≤ r < rows ∧ r `mod` n = Z.of_nat t).
    { intros t r Ht%elem_of_seq.
      destruct (static_finished t Hd) as (k & ? & -> & ? & ?); [lia|].
      apply stride_elem; lia. }
    apply NoDup_Permutation.
    + apply NoDup_bind; [| |apply NoDup_seq].
      * intros t1 t2 r Ht1 Ht2 [_ H1]%Hin [_ H2]%Hin; [lia|done|done].
      * intros t Ht%elem_of_seq.
        destruct (static_finished t Hd) as (k & ? & -> & ? & ?); [lia|].
        apply stride_NoDup. lia.
    + apply NoDup_seqZ.
    + intros r. rewrite list_elem_of_bind, elem_of_seqZ. split.
      * intros (t & Hr & Ht). apply Hin in Hr as [? _]; [lia|done].
      * intros Hr. pose proof (Z.mod_pos_bound r n) as Hmod.
        assert (Ht : Z.to_nat (r `mod` n) ∈ seq 0 (Z.to_nat n))
          by (apply elem_of_seq; lia).
        exists (Z.to_nat (r `mod` n)). split; [|done].
        apply Hin; [done|]. lia.
Qed.

Lemma total_work_rows : total_work n s = rows.
Proof.
  rewrite total_work_length.
  rewrite <- (length_fmap snd), (Permutation_length all_rows_summed).
  rewrite length_seqZ, rows_eq. reflexivity.
Qed.

Lemma gross_sum_reference : gross_sum s = reference_sum work.
Proof.
  by rewrite gross_sum_cast, reference_sum_cast,
       (cast_rows_perm _ _ _ all_rows_summed).
Qed.

End Finished.

(** ** Every run can be brought to an end *)

Section Progress.

Variable work : Z → Z → Z.
Variables dflag n : Z.
Hypothesis Hvalid : valid_threads n.

Lemma sched_step_state c tid :
  (sched_step work c tid).1 = (thread_step work tid c.1).1.
Proof. unfold sched_step. by destruct (thread_step work tid c.1). Qed.

(** A step of a thread that has not returned uses up fuel. *)
Lemma fuel_step c tid l :
  run_inv work dflag n c → threads c.1 !! tid = Some l → l ≠ Exited →
  (fuel (thread_step work tid c.1).1 < fuel c.1)%nat.
Proof.
  destruct Hvalid as [Hn1 Hn2]. destruct c as [s tr]. simpl.
  intros [_ Hmode] Hl Hrun. unfold thread_step. rewrite Hl.
  destruct Hmode as [[_ (Hc & _ & _ & Hths)]|[_ Hst]]; simpl in *.
  - pose proof (Forall_lookup_1 _ _ _ _ Hths Hl) as Hdl.
    destruct l as [i m| |r|]; simpl in Hdl; [done| | |done].
    + unfold sum_dynamic_lock. rewrite claim_spec by done.
      destruct (decide (0 < counter s)); unfold fuel; simpl.
      * pose proof (weight_insert (threads s) tid DynLock
                      (DynSum (counter s - 1)) Hl). simpl in *. lia.
      * pose proof (weight_insert (threads s) tid DynLock Exited Hl).
        simpl in *. lia.
    + unfold sum_dynamic_row, fuel. simpl.
      pose proof (weight_insert (threads s) tid (DynSum r) DynLock Hl).
      simpl in *. lia.
  - destruct (Hst _ _ Hl) as (k & Hk & _ & _ & [->|[-> _]]); [|done].
    unfold sum_static_step.
    destruct (Z.ltb_spec (Z.of_nat tid + k * n) rows); unfold fuel; simpl.
    + rewrite to_int_id by (unfold int_min, int_max in *; nia).
      pose proof (weight_insert (threads s) tid
                    (StaticLoop (Z.of_nat tid + k * n) n)
                    (StaticLoop (Z.of_nat tid + k * n + n) n) Hl).
      simpl in *. lia.
    + pose proof (weight_insert (threads s) tid
                    (StaticLoop (Z.of_nat tid + k * n) n) Exited Hl).
      simpl in *. lia.
Qed.

Lemma finish_within m c :
  (fuel c.1 ≤ m)%nat → run_inv work dflag n c →
  ∃ sched, joined n (run work sched c).1 = true.
Proof.
  revert c. induction m as [|m IH]; intros c Hfuel Hinv;
    (destruct (joined n c.1) eqn:Hj; [by exists []|]);
    destruct (not_joined_running n c.1) as (tid & l & Hl & Hrun);
    try done; try apply Hinv;
    pose proof (fuel_step c tid l Hinv Hl Hrun) as Hless.
  - lia.
  - destruct (IH (sched_step work c tid)) as [sched Hsched].
    + rewrite sched_step_state. lia.
    + by apply run_inv_step.
    + by exists (tid :: sched).
Qed.

(** Whatever the threads have done so far, some continuation lets all
    of them return. *)
Lemma can_finish sched :
  is_mode dflag →
  ∃ sched',
    joined n (run work (sched ++ sched') (spawn dflag n, [])).1 = true.
Proof.
  intros Hmode.
  destruct (finish_within
              (fuel (run work sched (spawn dflag n, [])).1)
              (run work sched (spawn dflag n, []))) as [sched' Hj].
  - done.
  - by apply run_inv_reach.
  - exists sched'. by rewrite run_app.
Qed.

End Progress.

(** * The program against its specification *)

(** C1: for a worker count of 1, 2, 4 or 8 and for both values of [dflag]
    that start threads, a run can be brought to the point where every
    thread is joined, and at that point [gross_sum], the fold of the [sum]
    vector, is the sum of every element [work[i][j]] of the matrix, each
    cast to [uint64_t], taken modulo 2^64; this is also what the serial
    pass [reference_sum] leaves in its accumulator. *)
Theorem gross_sum_correct (work : Z → Z → Z) (dflag n : Z) :
  n ∈ [1; 2; 4; 8] → is_mode dflag →
  (∃ sched, joined n (run work sched (spawn dflag n, [])).1 = true) ∧
  (∀ sched,
     joined n (run work sched (spawn dflag n, [])).1 = true →
     gross_sum (run work sched (spawn dflag n, [])).1
     = to_u64 (cast_rows work (seqZ 0 rows))) ∧
  reference_sum work = to_u64 (cast_rows work (seqZ 0 rows)).
Proof.
  intros Hn Hmode.
  assert (Hvalid : valid_threads n).
  { unfold valid_threads. rewrite rows_eq. unfold int_max.
    repeat (apply elem_of_cons in Hn as [->|Hn]; [lia|]).
    by apply elem_of_nil in Hn. }
  refine (conj _ (conj _ (reference_sum_cast work))).
  - apply (can_finish work dflag n Hvalid [] Hmode).
  - intros sched Hj.
    pose proof (run_inv_reach work dflag n Hvalid sched Hmode) as Hinv.
    destruct (run work sched (spawn dflag n, [])) as [s tr]. cbn [fst] in *.
    rewrite (gross_sum_cast work dflag n s tr Hinv).
    by rewrite (cast_rows_perm work _ _
                  (all_rows_summed work dflag n Hvalid s tr Hinv Hj)).
Qed.

(** C2: for every valid worker count and both modes, once every thread is
    joined the rows that were added to a slot, taken over all threads, are
    the indices 0 .. rows-1, each once; and in dynamic mode [counter] is
    never negative, whatever the threads have done so far. *)
Theorem rows_summed_once (work : Z → Z → Z) (dflag n : Z) :
  valid_threads n → is_mode dflag →
  (∃ sched, joined n (run work sched (spawn dflag n, [])).1 = true) ∧
  (∀ sched,
     joined n (run work sched (spawn dflag n, [])).1 = true →
     (summed (run work sched (spawn dflag n, [])).2).*2 ≡ₚ seqZ 0 rows) ∧
  (∀ sched, 0 ≤ counter (run work sched (spawn 1 n, [])).1).
Proof.
  intros Hvalid Hmode. split_and!.
  - apply (can_finish work dflag n Hvalid [] Hmode).
  - intros sched Hj.
    pose proof (run_inv_reach work dflag n Hvalid sched Hmode) as Hinv.
    destruct (run work sched (spawn dflag n, [])) as [s tr].
    by apply (all_rows_summed work dflag n Hvalid s tr).
  - intros sched.
    destruct (run_inv_reach work 1 n Hvalid sched) as [_ [[_ Hdyn]|[? _]]];
      [by right| |done].
    apply Hdyn.
Qed.

(** C5: for every valid worker count and both modes, once every thread is
    joined [total_work], the sum of the [tcount] vector, is [rows]. *)
Theorem total_work_conserved (work : Z → Z → Z) (dflag n : Z) :
  valid_threads n → is_mode dflag →
  (∃ sched, joined n (run work sched (spawn dflag n, [])).1 = true) ∧
  (∀ sched,
     joined n (run work sched (spawn dflag n, [])).1 = true →
     total_work n (run work sched (spawn dflag n, [])).1 = rows).
Proof.
  intros Hvalid Hmode. split.
  - apply (can_finish work dflag n Hvalid [] Hmode).
  - intros sched Hj.
    pose proof (run_inv_reach work dflag n Hvalid sched Hmode) as Hinv.
    destruct (run work sched (spawn dflag n, [])) as [s tr].
    by apply (total_work_rows work dflag n Hvalid s tr).
Qed.

(** C4: in static mode the rows thread [tid] adds to its slot are, in
    order, [tid], [tid + n], [tid + 2n], ... below [rows], whatever the
    schedule; with 4 threads these are the 250 rows [tid + 4k], so rows
    0, 4, ..., 996 for thread 0. *)
Theorem static_assignment (work : Z → Z → Z) (n : Z) :
  valid_threads n →
  (∃ sched, joined n (run work sched (spawn 0 n, [])).1 = true) ∧
  (∀ sched (tid : nat),
     (tid < Z.to_nat n)%nat →
     joined n (run work sched (spawn 0 n, [])).1 = true →
     rows_of tid (run work sched (spawn 0 n, [])).2
     = stride_rows (Z.of_nat tid) n) ∧
  (∀ tid, 0 ≤ tid < 4 →
     stride_rows tid 4 = (λ k, tid + k * 4) <$> seqZ 0 250) ∧
  stride_rows 0 4 = Z.mul 4 <$> seqZ 0 250 ∧
  last (stride_rows 0 4) = Some 996 ∧
  length (stride_rows 0 4) = 250%nat.
Proof.
  intros Hvalid.
  assert (Hmode : is_mode 0) by by left.
  assert (Hfour : ∀ tid, 0 ≤ tid < 4 →
            stride_rows tid 4 = (λ k, tid + k * 4) <$> seqZ 0 250).
  { intros tid Htid. apply stride_rows_closed; rewrite ?rows_eq; lia. }
  assert (Hzero : stride_rows 0 4 = Z.mul 4 <$> seqZ 0 250).
  { rewrite Hfour by lia. apply list_fmap_ext. intros _ k _. lia. }
  split_and!.
  - apply (can_finish work 0 n Hvalid [] Hmode).
  - intros sched tid Htid Hj.
    pose proof (run_inv_reach work 0 n Hvalid sched Hmode) as Hinv.
    destruct (run work sched (spawn 0 n, [])) as [s tr].
    by apply (static_rows work 0 n Hvalid s tr).
  - done.
  - done.
  - rewrite Hzero. reflexivity.
  - by rewrite Hzero, length_fmap, length_seqZ.
Qed.

(** C8: static mode is deterministic: two runs with the same worker count
    over the same matrix end, whatever their schedules, with the same
    [tcount] and the same [sum] in every slot. *)
Theorem static_deterministic (work : Z → Z → Z) (n : Z) (sched1 sched2 : list nat) :
  valid_threads n →
  joined n (run work sched1 (spawn 0 n, [])).1 = true →
  joined n (run work sched2 (spawn 0 n, [])).1 = true →
  tcount (run work sched1 (spawn 0 n, [])).1
  = tcount (run work sched2 (spawn 0 n, [])).1 ∧
  sum (run work sched1 (spawn 0 n, [])).1
  = sum (run work sched2 (spawn 0 n, [])).1.
Proof.
  intros Hvalid Hj1 Hj2.
  assert (Hmode : is_mode 0) by by left.
  pose proof (run_inv_reach work 0 n Hvalid sched1 Hmode) as Hinv1.
  pose proof (run_inv_reach work 0 n Hvalid sched2 Hmode) as Hinv2.
  destruct (run work sched1 (spawn 0 n, [])) as [s1 tr1].
  destruct (run work sched2 (spawn 0 n, [])) as [s2 tr2].
  assert (Hrows : ∀ t : nat, (t < Z.to_nat n)%nat →
            rows_of t tr1 = rows_of t tr2).
  { intros t Ht.
    rewrite (static_rows work 0 n Hvalid s1 tr1 Hinv1 Hj1 t eq_refl Ht).
    by rewrite (static_rows work 0 n Hvalid s2 tr2 Hinv2 Hj2 t eq_refl Ht). }
  destruct Hinv1 as [(_ & Ht1 & Hs1 & _) _].
  destruct Hinv2 as [(_ & Ht2 & Hs2 & _) _]. simpl in *.
  rewrite Ht1, Ht2, Hs1, Hs2.
  split; apply list_fmap_ext; intros i t [-> Ht]%lookup_seq;
    by rewrite Hrows.
Qed.

(** C9: in dynamic mode the row indices handed out under the lock are, in
    the order the lock was taken, rows-1, rows-2, ... down to the current
    value of [counter]: the k-th claim (counted from 1) hands out row
    [rows - k], and once every thread is joined all of rows-1 .. 0 have
    been handed out. *)
Theorem claims_descend (work : Z → Z → Z) (n : Z) (sched : list nat) :
  valid_threads n →
  claimed (run work sched (spawn 1 n, [])).2
  = reverse (seqZ (counter (run work sched (spawn 1 n, [])).1)
                  (rows - counter (run work sched (spawn 1 n, [])).1)) ∧
  (∀ k : nat,
     (1 ≤ k ≤ length (claimed (run work sched (spawn 1 n, [])).2))%nat →
     claimed (run work sched (spawn 1 n, [])).2 !! (k - 1)%nat
     = Some (rows - Z.of_nat k)) ∧
  (joined n (run work sched (spawn 1 n, [])).1 = true →
   claimed (run work sched (spawn 1 n, [])).2 = reverse (seqZ 0 rows)).
Proof.
  intros Hvalid.
  assert (Hmode : is_mode 1) by by right.
  pose proof (run_inv_reach work 1 n Hvalid sched Hmode) as Hinv.
  destruct (run work sched (spawn 1 n, [])) as [s tr]. simpl.
  pose proof Hinv as [_ [[_ (Hc & Hcl & _ & _)]|[? _]]]; [|done].
  simpl in *. split_and!.
  - done.
  - intros k Hk. rewrite Hcl in *.
    rewrite length_reverse, length_seqZ in Hk.
    rewrite reverse_lookup by (rewrite length_seqZ; lia).
    apply lookup_seqZ. rewrite length_seqZ. lia.
  - intros Hj.
    destruct (dynamic_drained work 1 n Hvalid s tr Hinv Hj eq_refl) as [Hc0 _].
    by rewrite Hcl, Hc0, Z.sub_0_r.
Qed.

(** C3: the critical section of [sum_dynamic], for a thread about to take
    the lock and any value of [counter] an [int] can hold: with
    [counter > 0] it decrements [counter] and hands row [counter - 1] (the
    value before the decrement, less one) to the thread, and touches
    neither [tcount] nor [sum]; with [counter = 0] it leaves [counter]
    alone and the thread returns, and never steps again. *)
Theorem claim_under_lock (work : Z → Z → Z) (tid : nat) (s : state) :
  threads s !! tid = Some DynLock →
  int_min ≤ counter s ≤ int_max →
  (0 < counter s →
   claim (counter s) = (counter s - 1, false) ∧
   counter (thread_step work tid s).1 = counter s - 1 ∧
   threads (thread_step work tid s).1 !! tid = Some (DynSum (counter s - 1)) ∧
   (thread_step work tid s).2 = [Claimed tid (counter s - 1)] ∧
   tcount (thread_step work tid s).1 = tcount s ∧
   sum (thread_step work tid s).1 = sum s) ∧
  (counter s = 0 →
   claim (counter s) = (0, true) ∧
   counter (thread_step work tid s).1 = 0 ∧
   threads (thread_step work tid s).1 !! tid = Some Exited ∧
   (thread_step work tid s).2 = [] ∧
   tcount (thread_step work tid s).1 = tcount s ∧
   sum (thread_step work tid s).1 = sum s ∧
   thread_step work tid (thread_step work tid s).1
   = ((thread_step work tid s).1, [])).
Proof.
  intros Hl Hc. pose proof (lookup_lt_Some _ _ _ Hl) as Hlt. split.
  - intros Hpos.
    assert (Hclaim : claim (counter s) = (counter s - 1, false)).
    { unfold claim. destruct (Z.ltb_spec 0 (counter s)); [|lia].
      rewrite to_int_id; [done|]. unfold int_min, int_max in *. lia. }
    assert (Hstep : thread_step work tid s
              = (set_local tid (DynSum (counter s - 1))
                   (set_counter (counter s - 1) s),
                 [Claimed tid (counter s - 1)])).
    { unfold thread_step. rewrite Hl. unfold sum_dynamic_lock.
      by rewrite Hclaim. }
    rewrite Hstep. simpl. split_and!; try done.
    by apply list_lookup_insert_eq.
  - intros Hzero.
    assert (Hclaim : claim (counter s) = (0, true))
      by (rewrite Hzero; reflexivity).
    assert (Hstep : thread_step work tid s
              = (set_local tid Exited (set_counter 0 s), [])).
    { unfold thread_step. rewrite Hl. unfold sum_dynamic_lock.
      by rewrite Hclaim. }
    rewrite Hstep. simpl.
    assert (Hex : <[tid:=Exited]> (threads s) !! tid = Some Exited)
      by by apply list_lookup_insert_eq.
    split_and!; try done.
    unfold thread_step. simpl. by rewrite Hex.
Qed.

(** ** The command line *)

Lemma parse_options_snoc hw opts g :
  parse_options hw (opts ++ [g]) = option_case hw (parse_options hw opts) g.
Proof. apply foldl_snoc. Qed.

Lemma last_t_snoc opts g :
  last_t (opts ++ [g])
  = if decide (opt g = "t"%char) then Some (optarg g) else last_t opts.
Proof. unfold last_t. by rewrite foldl_snoc. Qed.

(** C6, as the code has it: without [-t] the worker count is 2; otherwise
    it is decided by the argument of the last [-t] alone: with [v] the
    value of [atoi] on it, converted to [unsigned int], the count is
    [hardware_concurrency()] when [v] is larger than that and [v]
    otherwise.  An argument that is not a number gives [v = 0] and is used
    as 0 workers; a negative one converts to a large [v] and is clamped. *)
Theorem worker_count (hw : Z) (opts : list getopt_result) :
  n_threads (parse_options hw opts)
  = match last_t opts with
    | None => 2
    | Some a => if hw <? to_uint (atoi a) then hw else to_uint (atoi a)
    end.
Proof.
  induction opts as [|g opts IH] using rev_ind; [done|].
  rewrite parse_options_snoc, last_t_snoc. unfold option_case.
  destruct (decide (opt g = "d"%char)) as [Hd|_].
  - rewrite decide_False by (rewrite Hd; discriminate). done.
  - destruct (decide (opt g = "t"%char)); [done|].
    by destruct (decide (opt g = "?"%char)).
Qed.

(** Against C6 as it is written: with 8 hardware threads, [-t abc] is
    not clamped to 8 but used as 0, and the run starts no worker. *)
Lemma worker_count_invalid_arg :
  n_threads (parse_options 8 [Getopt "t" "abc"]) = 0 ∧
  n_threads (parse_options 8 [Getopt "t" "abc"]) ≠ 8 ∧
  main sample_work 8 [Getopt "t" "abc"] []
  = Some {| stderr := []; report := Some (0, 0); status := 0 |}.
Proof. split_and!; [reflexivity|discriminate|reflexivity]. Qed.

(** When the option [getopt] reports last is an unknown one, the guarded
    block is skipped. *)
Lemma usage_last_skips (work : Z → Z → Z) hw opts a sched :
  main work hw (opts ++ [Getopt "?" a]) sched
  = Some {| stderr := err (parse_options hw opts) ++ usage;
            report := None;
            status := 0 |}.
Proof. unfold main. rewrite parse_options_snoc. reflexivity. Qed.

Lemma main_usage_then_d (work : Z → Z → Z) (hw : Z) (sched : list nat) :
  main work hw [Getopt "?" ""; Getopt "d" ""] sched
  = if joined 2 (run work sched (spawn 1 2, [])).1 then
      Some {| stderr := usage;
              report :=
                Some (total_work 2 (run work sched (spawn 1 2, [])).1,
                      gross_sum (run work sched (spawn 1 2, [])).1);
              status := 0 |}
    else None.
Proof. reflexivity. Qed.

(** C7 fails on the command line [reduce -x -d]: [getopt] returns ['?'] and
    then ['d'], the usage message is printed, and [dflag] is back at 1 when
    the loop ends, so two threads are started and the whole matrix is
    summed: every schedule that lets [main] return ends with the report of
    a full run, and there is such a schedule. *)
Theorem usage_then_d_computes (work : Z → Z → Z) (hw : Z) :
  (∃ sched,
     main work hw [Getopt "?" ""; Getopt "d" ""] sched
     = Some {| stderr := usage;
               report := Some (rows, reference_sum work);
               status := 0 |}) ∧
  (∀ sched out,
     main work hw [Getopt "?" ""; Getopt "d" ""] sched = Some out →
     out = {| stderr := usage;
              report := Some (rows, reference_sum work);
              status := 0 |}).
Proof.
  assert (Hvalid : valid_threads 2).
  { unfold valid_threads. rewrite rows_eq. unfold int_max. lia. }
  assert (Hmode : is_mode 1) by (right; reflexivity).
  assert (Hall : ∀ sched out,
            main work hw [Getopt "?" ""; Getopt "d" ""] sched = Some out →
            out = {| stderr := usage;
                     report := Some (rows, reference_sum work);
                     status := 0 |}).
  { intros sched out. rewrite main_usage_then_d.
    pose proof (run_inv_reach work 1 2 Hvalid sched Hmode) as Hinv.
    destruct (run work sched (spawn 1 2, [])) as [s tr]. cbn [fst].
    destruct (joined 2 s) eqn:Hj; [|discriminate]. intros [= <-].
    rewrite (total_work_rows work 1 2 Hvalid s tr Hinv Hj).
    rewrite (gross_sum_reference work 1 2 Hvalid s tr Hinv Hj).
    reflexivity. }
  split; [|exact Hall].
  destruct (can_finish work 1 2 Hvalid [] Hmode) as [sched Hj].
  change ([] ++ sched) with sched in Hj.
  exists sched. specialize (Hall sched).
  rewrite main_usage_then_d in Hall |- *. rewrite Hj in Hall |- *.
  f_equal. apply Hall. reflexivity.
Qed.

(** ** Range of the accumulators *)

Lemma rows_of_short (work : Z → Z → Z) dflag n s tr (t : nat) :
  valid_threads n → run_inv work dflag n (s, tr) → (t < Z.to_nat n)%nat →
  Z.of_nat (length (rows_of t tr)) ≤ rows
  ∧ Forall (λ i, 0 ≤ i < rows) (rows_of t tr).
Proof.
  intros [Hn1 Hn2] [(Hlen & _) [[_ (Hc & Hcl & Hperm & _)]|[_ Hst]]] Ht;
    simpl in *.
  - split.
    + apply Permutation_length in Hperm.
      rewrite Hcl, length_reverse, length_seqZ, length_app, length_fmap in Hperm.
      unfold rows_of. rewrite length_fmap.
      pose proof (length_filter (λ p : nat * Z, p.1 = t) (summed tr)). lia.
    + apply Forall_forall. intros r Hr.
      assert (Hin : r ∈ claimed tr).
      { rewrite <- Hperm. apply elem_of_app. left.
        unfold rows_of in Hr.
        apply list_elem_of_fmap in Hr as (p & -> & Hp%list_elem_of_filter).
        apply list_elem_of_fmap. exists p. split; [done|]. apply Hp. }
      rewrite Hcl in Hin. apply elem_of_reverse, elem_of_seqZ in Hin. lia.
  - destruct (lookup_lt_is_Some_2 (threads s) t) as [l Hl]; [lia|].
    destruct (Hst _ _ Hl) as (k & Hk & Hr & Hlast & _). simpl in Hr.
    rewrite Hr, length_fmap, length_seqZ. split.
    + rewrite rows_eq in *. nia.
    + apply Forall_fmap, Forall_seqZ. intros j Hj. simpl. nia.
Qed.

(** C10: with every element of the matrix in the range of [rand()], that
    is in [0, 2^31), the exact total is below 2^48 and no [uint64_t]
    accumulator wraps: at every point of every run each slot of [sum] is
    the exact sum of the rows its thread has added, the serial reference is
    the exact total, and so is [gross_sum] once every thread is joined. *)
Theorem accumulators_exact (work : Z → Z → Z) (dflag n : Z) (sched : list nat) :
  (∀ i j, 0 ≤ i < rows → 0 ≤ j < cols → 0 ≤ work i j < 2 ^ 31) →
  valid_threads n → is_mode dflag →
  0 ≤ exact_total work < 2 ^ 48 ∧
  reference_sum work = exact_total work ∧
  (∀ tid : nat,
     (tid < Z.to_nat n)%nat →
     slot (sum (run work sched (spawn dflag n, [])).1) tid
     = exact_rows work (rows_of tid (run work sched (spawn dflag n, [])).2)) ∧
  (joined n (run work sched (spawn dflag n, [])).1 = true →
   gross_sum (run work sched (spawn dflag n, [])).1 = exact_total work).
Proof.
  intros Hwork' Hvalid Hmode.
  assert (Hwork : ∀ i j, 0 ≤ i < rows → 0 ≤ j < cols → 0 ≤ work i j ≤ int_max).
  { intros i j Hi Hj. specialize (Hwork' i j Hi Hj). unfold int_max. lia. }
  assert (Hsmall : ∀ l : list Z,
            Z.of_nat (length l) ≤ rows → Forall (λ i, 0 ≤ i < rows) l →
            to_u64 (cast_rows work l) = exact_rows work l).
  { intros l Hl Hr. rewrite (cast_rows_exact work Hwork l Hr).
    apply to_u64_id. pose proof (exact_rows_bound work Hwork l Hr) as Hb.
    rewrite rows_eq, cols_eq in *. unfold int_max, u64_modulus in *. nia. }
  assert (Hall : Forall (λ i, 0 ≤ i < rows) (seqZ 0 rows))
    by (apply Forall_seqZ; lia).
  assert (Htotal : 0 ≤ exact_total work < 2 ^ 48).
  { pose proof (exact_rows_bound work Hwork (seqZ 0 rows) Hall) as Hb.
    rewrite length_seqZ in Hb. unfold exact_total.
    rewrite rows_eq, cols_eq in *. unfold int_max in *. lia. }
  assert (Href : reference_sum work = exact_total work).
  { rewrite reference_sum_cast. apply Hsmall; [|done].
    rewrite length_seqZ, rows_eq. lia. }
  pose proof (run_inv_reach work dflag n Hvalid sched Hmode) as Hinv.
  destruct (run work sched (spawn dflag n, [])) as [s tr]. simpl.
  refine (conj Htotal (conj Href (conj _ _))).
  - intros tid Htid.
    destruct (rows_of_short work dflag n s tr tid Hvalid Hinv Htid).
    destruct Hinv as [(_ & _ & Hs & _) _]. simpl in *.
    rewrite Hs, slot_fmap_seq by done. by apply Hsmall.
  - intros Hj.
    by rewrite (gross_sum_reference work dflag n Hvalid s tr Hinv Hj).
Qed.

(** * The theorems at concrete runs *)

Lemma valid_threads_2 : valid_threads 2.
Proof. unfold valid_threads, rows, int_max. lia. Defined.

Lemma valid_threads_4 : valid_threads 4.
Proof. unfold valid_threads, rows, int_max. lia. Defined.

(** C1 at four dynamically balanced threads, each taking its steps in one
    go. *)
Lemma gross_sum_correct_witness :
  joined 4 (run sample_work (turns 4 2001) (spawn 1 4, [])).1 = true ∧
  gross_sum (run sample_work (turns 4 2001) (spawn 1 4, [])).1
  = to_u64 (cast_rows sample_work (seqZ 0 rows)).
Proof.
  assert (Hj : joined 4 (run sample_work (turns 4 2001) (spawn 1 4, [])).1
               = true) by reflexivity.
  assert (Hn : 4 ∈ [1; 2; 4; 8])
    by (do 2 apply list_elem_of_further; apply list_elem_of_here).
  destruct (gross_sum_correct sample_work 1 4 Hn (or_intror eq_refl))
    as (_ & Hsum & _).
  exact (conj Hj (Hsum _ Hj)).
Defined.

(** C2 at four statically balanced threads. *)
Lemma rows_summed_once_witness :
  joined 4 (run sample_work (turns 4 251) (spawn 0 4, [])).1 = true ∧
  (summed (run sample_work (turns 4 251) (spawn 0 4, [])).2).*2
  ≡ₚ seqZ 0 rows ∧
  0 ≤ counter (run sample_work (turns 4 1000) (spawn 1 4, [])).1.
Proof.
  assert (Hj : joined 4 (run sample_work (turns 4 251) (spawn 0 4, [])).1
               = true) by reflexivity.
  destruct (rows_summed_once sample_work 0 4 valid_threads_4
              (or_introl eq_refl)) as (_ & Hrows & Hcounter).
  exact (conj Hj (conj (Hrows _ Hj) (Hcounter _))).
Defined.

(** C5 at two dynamically balanced threads. *)
Lemma total_work_conserved_witness :
  joined 2 (run sample_work (turns 2 2001) (spawn 1 2, [])).1 = true ∧
  total_work 2 (run sample_work (turns 2 2001) (spawn 1 2, [])).1 = rows.
Proof.
  assert (Hj : joined 2 (run sample_work (turns 2 2001) (spawn 1 2, [])).1
               = true) by reflexivity.
  destruct (total_work_conserved sample_work 1 2 valid_threads_2
              (or_intror eq_refl)) as [_ Htotal].
  exact (conj Hj (Htotal _ Hj)).
Defined.

(** C4 at thread 3 of four, under the round-robin schedule. *)
Lemma static_assignment_witness :
  joined 4 (run sample_work (round_robin 4 251) (spawn 0 4, [])).1 = true ∧
  rows_of 3 (run sample_work (round_robin 4 251) (spawn 0 4, [])).2
  = stride_rows 3 4.
Proof.
  assert (Hj : joined 4
                 (run sample_work (round_robin 4 251) (spawn 0 4, [])).1
               = true) by reflexivity.
  destruct (static_assignment sample_work 4 valid_threads_4)
    as (_ & Hrows & _).
  refine (conj Hj (Hrows _ 3%nat _ Hj)). simpl. lia.
Defined.

(** C8 at two schedules of four threads: one thread after the other, and
    round robin. *)
Lemma static_deterministic_witness :
  tcount (run sample_work (turns 4 251) (spawn 0 4, [])).1
  = tcount (run sample_work (round_robin 4 251) (spawn 0 4, [])).1 ∧
  sum (run sample_work (turns 4 251) (spawn 0 4, [])).1
  = sum (run sample_work (round_robin 4 251) (spawn 0 4, [])).1.
Proof.
  apply (static_deterministic sample_work 4 (turns 4 251) (round_robin 4 251)
           valid_threads_4); reflexivity.
Defined.

(** C9 at two threads of which the first has made 500 claims. *)
Lemma claims_descend_witness :
  claimed (run sample_work (replicate 1000 0%nat) (spawn 1 2, [])).2
  !! (500 - 1)%nat = Some (rows - 500).
Proof.
  destruct (claims_descend sample_work 2 (replicate 1000 0%nat)
              valid_threads_2) as (Hcl & Hkth & _).
  apply (Hkth 500%nat).
  rewrite Hcl, length_reverse, length_seqZ.
  assert (Hc : counter (run sample_work (replicate 1000 0%nat) (spawn 1 2, [])).1
               = 500) by reflexivity.
  rewrite Hc. unfold rows. lia.
Defined.

(** C3 at the first claim of a run. *)
Lemma claim_under_lock_witness :
  counter (thread_step sample_work 0 (spawn 1 2)).1 = rows - 1 ∧
  threads (thread_step sample_work 0 (spawn 1 2)).1 !! 0%nat
  = Some (DynSum (rows - 1)) ∧
  (thread_step sample_work 0 (spawn 1 2)).2 = [Claimed 0 (rows - 1)].
Proof.
  assert (Hl : threads (spawn 1 2) !! 0%nat = Some DynLock) by reflexivity.
  assert (Hc : int_min ≤ counter (spawn 1 2) ≤ int_max)
    by (unfold int_min, int_max, spawn, rows; simpl; lia).
  assert (Hpos : 0 < counter (spawn 1 2))
    by (unfold spawn, rows; simpl; lia).
  destruct (claim_under_lock sample_work 0 (spawn 1 2) Hl Hc) as [Hclaim _].
  destruct (Hclaim Hpos) as (_ & Hcounter & Hlocal & Hevent & _).
  exact (conj Hcounter (conj Hlocal Hevent)).
Defined.

Lemma sample_work_range i j :
  0 ≤ i < rows → 0 ≤ j < cols → 0 ≤ sample_work i j < 2 ^ 31.
Proof. unfold sample_work, rows, cols. lia. Defined.

(** C10 at four statically balanced threads over the sample matrix. *)
Lemma accumulators_exact_witness :
  joined 4 (run sample_work (turns 4 251) (spawn 0 4, [])).1 = true ∧
  gross_sum (run sample_work (turns 4 251) (spawn 0 4, [])).1
  = exact_total sample_work.
Proof.
  assert (Hj : joined 4 (run sample_work (turns 4 251) (spawn 0 4, [])).1
               = true) by reflexivity.
  destruct (accumulators_exact sample_work 0 4 (turns 4 251)
              sample_work_range valid_threads_4 (or_introl eq_refl))
    as (_ & _ & _ & Hgross).
  exact (conj Hj (Hgross Hj)).
Defined.

(** * Further properties of the code *)

(** ** The option loop of [main] *)

Lemma option_case_plain hw o g :
  opt g ≠ "d"%char → opt g ≠ "?"%char →
  dflag (option_case hw o g) = dflag o ∧ err (option_case hw o g) = err o.
Proof.
  intros Hd Hq. unfold option_case.
  destruct (decide (opt g = "d"%char)); [done|].
  destruct (decide (opt g = "t"%char)); [done|].
  by destruct (decide (opt g = "?"%char)).
Qed.

Lemma foldl_option_case_plain hw post o :
  Forall (λ g, opt g ≠ "d"%char ∧ opt g ≠ "?"%char) post →
  dflag (foldl (option_case hw) o post) = dflag o.
Proof.
  intros Hpost. revert o.
  induction Hpost as [|g post [Hd Hq] _ IH]; intros o; simpl; [done|].
  rewrite IH. by apply option_case_plain.
Qed.

(** The mode is decided by the last [-d] or unknown option that [getopt]
    reports: [dflag] ends at 1 when a [-d] is followed by neither, at -1
    when an unknown option is followed by neither, and at 0 when there is
    none at all; [-t] options never change it. *)
Theorem dflag_last_option (hw : Z) (pre post : list getopt_result)
    (g : getopt_result) :
  Forall (λ g, opt g ≠ "d"%char ∧ opt g ≠ "?"%char) post →
  (opt g = "d"%char → dflag (parse_options hw (pre ++ g :: post)) = 1) ∧
  (opt g = "?"%char → dflag (parse_options hw (pre ++ g :: post)) = -1) ∧
  dflag (parse_options hw post) = 0.
Proof.
  intros Hpost. unfold parse_options.
  rewrite foldl_app. simpl. rewrite !foldl_option_case_plain by done.
  split_and!; [| |done]; intros Hg; unfold option_case.
  - by rewrite decide_True.
  - rewrite decide_False by (rewrite Hg; discriminate).
    rewrite decide_False by (rewrite Hg; discriminate).
    by rewrite decide_True.
Qed.

Lemma dflag_last_option_witness :
  dflag (parse_options 8 [Getopt "?" ""; Getopt "d" ""; Getopt "t" "4"]) = 1 ∧
  dflag (parse_options 8 [Getopt "d" ""; Getopt "?" ""; Getopt "t" "4"]) = -1.
Proof.
  assert (Hpost : Forall (λ g, opt g ≠ "d"%char ∧ opt g ≠ "?"%char)
                    [Getopt "t" "4"]).
  { repeat constructor; discriminate. }
  split.
  - apply (dflag_last_option 8 [Getopt "?" ""] [Getopt "t" "4"]
             (Getopt "d" "") Hpost). reflexivity.
  - apply (dflag_last_option 8 [Getopt "d" ""] [Getopt "t" "4"]
             (Getopt "?" "") Hpost). reflexivity.
Defined.

Lemma join_replicate_snoc {A} (l : list A) k :
  mjoin (replicate (S k) l) = mjoin (replicate k l) ++ l.
Proof.
  induction k as [|k IH]; simpl in *; [by rewrite app_nil_r|].
  by rewrite IH at 1; rewrite (assoc_L (++)).
Qed.

(** The usage message goes to [std::cerr] once for every unknown option
    [getopt] reports, and nothing else does. *)
Theorem usage_per_unknown_option (hw : Z) (opts : list getopt_result) :
  err (parse_options hw opts)
  = mjoin (replicate (length (filter (λ g, opt g = "?"%char) opts)) usage).
Proof.
  induction opts as [|g opts IH] using rev_ind; [done|].
  rewrite parse_options_snoc, filter_app, length_app.
  rewrite filter_cons, filter_nil. unfold option_case.
  destruct (decide (opt g = "?"%char)) as [Hq|Hq]; simpl.
  - rewrite decide_False by (rewrite Hq; discriminate).
    rewrite decide_False by (rewrite Hq; discriminate).
    simpl. rewrite IH, Nat.add_1_r. by rewrite join_replicate_snoc.
  - rewrite Nat.add_0_r.
    by destruct (decide (opt g = "d"%char)), (decide (opt g = "t"%char)).
Qed.

(** Once a [-t] has been seen, the worker count lies between 0 and
    [hardware_concurrency()], whatever text the option carried. *)
Theorem worker_count_ceiling (hw : Z) (opts : list getopt_result) :
  0 ≤ hw → is_Some (last_t opts) →
  0 ≤ n_threads (parse_options hw opts) ≤ hw.
Proof.
  intros Hhw. induction opts as [|g opts IH] using rev_ind.
  - by intros [? ?].
  - rewrite parse_options_snoc, last_t_snoc. unfold option_case.
    destruct (decide (opt g = "d"%char)) as [Hd|_].
    + rewrite decide_False by (rewrite Hd; discriminate). apply IH.
    + destruct (decide (opt g = "t"%char)) as [_|_].
      * intros _. simpl.
        pose proof (Z.mod_pos_bound (atoi (optarg g)) uint_modulus) as Hv.
        unfold to_uint.
        destruct (Z.ltb_spec hw (atoi (optarg g) `mod` uint_modulus));
          unfold uint_modulus in *; lia.
      * destruct (decide (opt g = "?"%char)); apply IH.
Qed.

Lemma worker_count_ceiling_witness :
  0 ≤ n_threads (parse_options 8 [Getopt "t" "-3"; Getopt "d" ""]) ≤ 8.
Proof.
  apply (worker_count_ceiling 8 [Getopt "t" "-3"; Getopt "d" ""]); [lia|].
  by eexists.
Defined.

(** ** [main] as a whole *)

Lemma dflag_range hw opts :
  dflag (parse_options hw opts) = -1 ∨ is_mode (dflag (parse_options hw opts)).
Proof.
  induction opts as [|g opts IH] using rev_ind; [by right; left|].
  rewrite parse_options_snoc. unfold option_case.
  destruct (decide (opt g = "d"%char)); [by right; right|].
  destruct (decide (opt g = "t"%char)); [done|].
  destruct (decide (opt g = "?"%char)); [by left|done].
Qed.

(** A command line that does not end in the usage path and asks for a
    valid worker count always gets the full result: some schedule lets
    [main] return, and whenever it returns it has printed [rows] as
    [total_work] and, as [gross_sum], the sum of every element of the
    matrix, each cast to [uint64_t], modulo 2^64, and exits with 0. *)
Theorem main_reports_full_sum (work : Z → Z → Z) (hw : Z)
    (opts : list getopt_result) :
  valid_threads (n_threads (parse_options hw opts)) →
  dflag (parse_options hw opts) ≠ -1 →
  (∃ sched, is_Some (main work hw opts sched)) ∧
  (∀ sched out,
     main work hw opts sched = Some out →
     out = {| stderr := err (parse_options hw opts);
              report := Some (rows, to_u64 (cast_rows work (seqZ 0 rows)));
              status := 0 |}).
Proof.
  intros Hvalid Hd.
  destruct (dflag_range hw opts) as [?|Hmode]; [done|].
  apply Z.eqb_neq in Hd.
  split.
  - destruct (can_finish work _ _ Hvalid [] Hmode) as [sched Hj].
    change ([] ++ sched) with sched in Hj.
    exists sched. unfold main. rewrite Hd. cbv zeta. rewrite Hj. by eexists.
  - intros sched out. unfold main. rewrite Hd. cbv zeta.
    pose proof (run_inv_reach work _ _ Hvalid sched Hmode) as Hinv.
    destruct (run work sched
                (spawn (dflag (parse_options hw opts))
                       (n_threads (parse_options hw opts)), []))
      as [s tr]. cbn [fst].
    destruct (joined (n_threads (parse_options hw opts)) s) eqn:Hj;
      [|discriminate].
    intros [= <-].
    rewrite (total_work_rows work _ _ Hvalid s tr Hinv Hj).
    rewrite (gross_sum_cast work _ _ s tr Hinv).
    rewrite (cast_rows_perm work _ _
               (all_rows_summed work _ _ Hvalid s tr Hinv Hj)).
    reflexivity.
Qed.

Lemma main_reports_full_sum_witness :
  main sample_work 8 [Getopt "t" "4"; Getopt "d" ""] (turns 4 2001)
  = Some {| stderr := [];
            report :=
              Some (rows, to_u64 (cast_rows sample_work (seqZ 0 rows)));
            status := 0 |}.
Proof.
  assert (Hd : dflag (parse_options 8 [Getopt "t" "4"; Getopt "d" ""]) ≠ -1)
    by discriminate.
  destruct (main_reports_full_sum sample_work 8
              [Getopt "t" "4"; Getopt "d" ""] valid_threads_4 Hd)
    as [_ Hout].
  assert (Hj : joined 4 (run sample_work (turns 4 2001) (spawn 1 4, [])).1
               = true) by reflexivity.
  assert (Hm : main sample_work 8 [Getopt "t" "4"; Getopt "d" ""]
                 (turns 4 2001)
               = Some {| stderr := [];
                         report :=
                           Some (total_work 4
                                   (run sample_work (turns 4 2001)
                                      (spawn 1 4, [])).1,
                                 gross_sum
                                   (run sample_work (turns 4 2001)
                                      (spawn 1 4, [])).1);
                         status := 0 |}).
  { unfold main.
    change (parse_options 8 [Getopt "t" "4"; Getopt "d" ""])
      with {| dflag := 1; n_threads := 4; err := [] |}.
    cbn [dflag n_threads err]. change (1 =? -1) with false. cbv iota zeta.
    rewrite Hj. reflexivity. }
  exact (eq_trans Hm (f_equal Some (Hout _ _ Hm))).
Defined.

Lemma run_no_threads (work : Z → Z → Z) sched c :
  threads c.1 = [] → run work sched c = c.
Proof.
  intros Hths.
  assert (Hstep : ∀ tid, sched_step work c tid = c).
  { intros tid. unfold sched_step, thread_step. rewrite Hths. simpl.
    rewrite app_nil_r. by destruct c. }
  induction sched as [|tid sched IH]; [done|].
  simpl. by rewrite Hstep.
Qed.

(** A worker count of 0, which [-t 0] or a [-t] without a number gives,
    starts no thread: under every schedule [main] returns at once and
    reports 0 rows and a sum of 0. *)
Theorem main_without_workers (work : Z → Z → Z) (hw : Z)
    (opts : list getopt_result) (sched : list nat) :
  n_threads (parse_options hw opts) = 0 →
  dflag (parse_options hw opts) ≠ -1 →
  main work hw opts sched
  = Some {| stderr := err (parse_options hw opts);
            report := Some (0, 0);
            status := 0 |}.
Proof.
  intros Hn Hd. apply Z.eqb_neq in Hd.
  unfold main. rewrite Hd, Hn. cbv zeta.
  rewrite run_no_threads.
  - reflexivity.
  - unfold spawn. simpl.
    by destruct (dflag (parse_options hw opts) =? 1),
                (dflag (parse_options hw opts) =? 0).
Qed.

Lemma main_without_workers_witness :
  main sample_work 8 [Getopt "d" ""; Getopt "t" "0"] (turns 4 10)
  = Some {| stderr := []; report := Some (0, 0); status := 0 |}.
Proof.
  apply (main_without_workers sample_work 8 [Getopt "d" ""; Getopt "t" "0"]
           (turns 4 10)); [reflexivity|discriminate].
Defined.

(** ** What a thread touches *)

Lemma slot_insert_ne (v : list Z) (tid t : nat) x :
  t ≠ tid → slot (<[tid := x]> v) t = slot v t.
Proof. intros Hne. unfold slot. by rewrite list_lookup_insert_ne. Qed.

Lemma thread_step_frame (work : Z → Z → Z) (tid t : nat) (s : state) :
  t ≠ tid →
  slot (tcount (thread_step work tid s).1) t = slot (tcount s) t ∧
  slot (sum (thread_step work tid s).1) t = slot (sum s) t ∧
  threads (thread_step work tid s).1 !! t = threads s !! t.
Proof.
  intros Hne. destruct (thread_step work tid s) as [s' e] eqn:Hstep.
  cbn [fst]. split_and!.
  - apply thread_step_slots in Hstep
      as (_ & [(-> & _)|(r & _ & -> & _)]); [done|].
    by apply slot_insert_ne.
  - apply thread_step_slots in Hstep
      as (_ & [(_ & -> & _)|(r & _ & _ & -> & _)]); [done|].
    by apply slot_insert_ne.
  - by apply (thread_step_threads work tid t s s' e).
Qed.

(** A step of one thread leaves every other thread alone: its slots in
    [tcount] and [sum] and its program point are what they were. *)
Theorem thread_step_other_thread (work : Z → Z → Z) (tid t : nat) (s : state) :
  t ≠ tid →
  slot (tcount (thread_step work tid s).1) t = slot (tcount s) t ∧
  slot (sum (thread_step work tid s).1) t = slot (sum s) t ∧
  threads (thread_step work tid s).1 !! t = threads s !! t.
Proof. apply thread_step_frame. Qed.

Lemma thread_step_other_thread_witness :
  slot (tcount (thread_step sample_work 0 (spawn 0 2)).1) 1
  = slot (tcount (spawn 0 2)) 1 ∧
  slot (sum (thread_step sample_work 0 (spawn 0 2)).1) 1
  = slot (sum (spawn 0 2)) 1 ∧
  threads (thread_step sample_work 0 (spawn 0 2)).1 !! 1%nat
  = threads (spawn 0 2) !! 1%nat.
Proof.
  apply (thread_step_other_thread sample_work 0 1 (spawn 0 2)). discriminate.
Defined.

Lemma thread_step_exited (work : Z → Z → Z) tid s :
  threads s !! tid = Some Exited → thread_step work tid s = (s, []).
Proof. intros Hl. unfold thread_step. by rewrite Hl. Qed.

(** Once a thread has returned, nothing the other threads do, and no
    further turn given to it, changes its slots: what [main] reads from
    [tcount] right after [join] is final. *)
Theorem exited_slots_final (work : Z → Z → Z) (tid : nat) (sched : list nat)
    (c : state * list event) :
  threads c.1 !! tid = Some Exited →
  threads (run work sched c).1 !! tid = Some Exited ∧
  slot (tcount (run work sched c).1) tid = slot (tcount c.1) tid ∧
  slot (sum (run work sched c).1) tid = slot (sum c.1) tid.
Proof.
  revert c. induction sched as [|t sched IH]; intros c Hex; [done|].
  simpl. assert (Hstep :
    threads (sched_step work c t).1 !! tid = Some Exited ∧
    slot (tcount (sched_step work c t).1) tid = slot (tcount c.1) tid ∧
    slot (sum (sched_step work c t).1) tid = slot (sum c.1) tid).
  { rewrite sched_step_state. destruct (decide (tid = t)) as [<-|Hne].
    - by rewrite thread_step_exited.
    - destruct (thread_step_frame work t tid c.1 Hne) as (-> & -> & ->).
      done. }
  destruct Hstep as (Hex' & <- & <-). by apply IH.
Qed.

Lemma exited_slots_final_witness :
  slot (tcount (run sample_work (turns 4 251)
                  (run sample_work (replicate 251 0%nat) (spawn 0 4, []))).1)
       0
  = slot (tcount (run sample_work (replicate 251 0%nat) (spawn 0 4, [])).1) 0.
Proof.
  assert (Hex : threads (run sample_work (replicate 251 0%nat)
                           (spawn 0 4, [])).1 !! 0%nat = Some Exited)
    by reflexivity.
  exact (proj1 (proj2 (exited_slots_final sample_work 0 (turns 4 251)
                         _ Hex))).
Defined.

Lemma sched_step_idle (work : Z → Z → Z) c tid :
  thread_step work tid c.1 = (c.1, []) → sched_step work c tid = c.
Proof.
  intros Hstep. unfold sched_step. rewrite Hstep, app_nil_r. by destruct c.
Qed.

Lemma joined_run_idle (work : Z → Z → Z) (n : Z) sched c :
  length (threads c.1) = Z.to_nat n → joined n c.1 = true →
  run work sched c = c.
Proof.
  intros Hlen Hj. induction sched as [|tid sched IH]; [done|].
  simpl. rewrite sched_step_idle; [done|].
  destruct (decide (tid < Z.to_nat n)%nat) as [Hlt|Hge].
  - apply thread_step_exited. by apply (joined_exited n).
  - unfold thread_step.
    rewrite (proj2 (lookup_ge_None (threads c.1) tid)); [done|lia].
Qed.

(** ** Static runs and the shared counter *)

Lemma static_pool_step (work : Z → Z → Z) tid s :
  Forall (λ l, l = Exited ∨ ∃ i m, l = StaticLoop i m) (threads s) →
  Forall (λ l, l = Exited ∨ ∃ i m, l = StaticLoop i m)
         (threads (thread_step work tid s).1) ∧
  counter (thread_step work tid s).1 = counter s ∧
  claimed (thread_step work tid s).2 = [].
Proof.
  intros Hths. unfold thread_step.
  destruct (threads s !! tid) as [l|] eqn:Hl; [|done].
  destruct (Forall_lookup_1 _ _ _ _ Hths Hl) as [->|(i & m & ->)]; [done|].
  unfold sum_static_step. destruct (i <? rows); simpl.
  - split_and!; [|done|done]. apply Forall_insert; [done|]. right. eauto.
  - split_and!; [|done|done]. apply Forall_insert; [done|]. by left.
Qed.

Lemma static_pool_run (work : Z → Z → Z) sched c :
  Forall (λ l, l = Exited ∨ ∃ i m, l = StaticLoop i m) (threads c.1) →
  counter (run work sched c).1 = counter c.1 ∧
  claimed (run work sched c).2 = claimed c.2.
Proof.
  revert c. induction sched as [|tid sched IH]; intros c Hths; [done|].
  simpl. destruct (static_pool_step work tid c.1 Hths) as (Hths' & Hc & Hcl).
  destruct (IH (sched_step work c tid)) as [-> ->].
  - by rewrite sched_step_state.
  - rewrite sched_step_state, Hc. split; [done|].
    unfold sched_step. destruct (thread_step work tid c.1) as [s' e].
    simpl in *. by rewrite claimed_app, Hcl, app_nil_r.
Qed.

(** In static mode no thread ever reads or writes [counter] or takes the
    lock: under every schedule and for every worker count [counter] keeps
    its initial value [rows] and no row is handed out. *)
Theorem static_leaves_counter (work : Z → Z → Z) (n : Z) (sched : list nat) :
  counter (run work sched (spawn 0 n, [])).1 = rows ∧
  claimed (run work sched (spawn 0 n, [])).2 = [].
Proof.
  apply (static_pool_run work sched (spawn 0 n, [])).
  unfold spawn. simpl. apply Forall_fmap, Forall_forall.
  intros i _. simpl. right. eauto.
Qed.

(** ** Every point of a run *)

(** No access leaves the arrays: at every point of every run, each row
    that was added to a slot was added by a thread of the pool, so [tid]
    indexes [sum] and [tcount] inside their size, and each row index that
    was used on [work], or handed out under the lock, is below [rows] and
    not negative. *)
Theorem accesses_in_bounds (work : Z → Z → Z) (dflag n : Z) (sched : list nat) :
  valid_threads n → is_mode dflag →
  Forall (λ p, (p.1 < Z.to_nat n)%nat ∧ 0 ≤ p.2 < rows)
         (summed (run work sched (spawn dflag n, [])).2) ∧
  Forall (λ r, 0 ≤ r < rows) (claimed (run work sched (spawn dflag n, [])).2).
Proof.
  intros Hvalid Hmode.
  pose proof (run_inv_reach work dflag n Hvalid sched Hmode) as Hinv.
  assert (Hstatic : dflag = 0 →
            claimed (run work sched (spawn dflag n, [])).2 = []).
  { intros ->. apply (static_pool_run work sched (spawn 0 n, [])).
    unfold spawn. simpl. apply Forall_fmap, Forall_forall.
    intros i _. simpl. right. eauto. }
  destruct (run work sched (spawn dflag n, [])) as [s tr]. simpl in *.
  split.
  - pose proof Hinv as [(_ & _ & _ & Hlt) _]. simpl in Hlt.
    apply Forall_forall. intros p Hp.
    pose proof (proj1 (Forall_forall _ _) Hlt p Hp) as Hp1. simpl in Hp1.
    split; [done|].
    destruct (rows_of_short work dflag n s tr p.1 Hvalid Hinv Hp1)
      as [_ Hrange].
    apply (proj1 (Forall_forall _ _) Hrange). unfold rows_of.
    apply list_elem_of_fmap. exists p. split; [done|].
    by apply list_elem_of_filter.
  - destruct Hinv as [_ [[_ (Hc & Hcl & _ & _)]|[Hd _]]]; simpl in *.
    + rewrite Hcl. apply Forall_forall.
      intros r Hr%elem_of_reverse%elem_of_seqZ. lia.
    + by rewrite Hstatic.
Qed.

Lemma accesses_in_bounds_witness :
  Forall (λ p, (p.1 < Z.to_nat 4)%nat ∧ 0 ≤ p.2 < rows)
         (summed (run sample_work (round_robin 4 300) (spawn 1 4, [])).2) ∧
  Forall (λ r, 0 ≤ r < rows)
         (claimed (run sample_work (round_robin 4 300) (spawn 1 4, [])).2).
Proof.
  exact (accesses_in_bounds sample_work 1 4 (round_robin 4 300)
           valid_threads_4 (or_intror eq_refl)).
Defined.

(** The books of a dynamic run balance at every point: the rows still to
    be handed out ([counter]), the rows handed out but not yet added, and
    the rows added make [rows] together, and [total_work], were it read
    then, would be the number of rows added. *)
Theorem dynamic_accounting (work : Z → Z → Z) (n : Z) (sched : list nat) :
  valid_threads n →
  counter (run work sched (spawn 1 n, [])).1
  + Z.of_nat (length (in_flight (threads (run work sched (spawn 1 n, [])).1)))
  + Z.of_nat (length (summed (run work sched (spawn 1 n, [])).2))
  = rows ∧
  total_work n (run work sched (spawn 1 n, [])).1
  = Z.of_nat (length (summed (run work sched (spawn 1 n, [])).2)).
Proof.
  intros Hvalid.
  pose proof (run_inv_reach work 1 n Hvalid sched (or_intror eq_refl)) as Hinv.
  destruct (run work sched (spawn 1 n, [])) as [s tr]. simpl.
  rewrite (total_work_length work 1 n s tr Hinv).
  destruct Hinv as [_ [[_ (Hc & Hcl & Hperm & _)]|[? _]]]; [|done].
  simpl in *. apply Permutation_length in Hperm.
  rewrite Hcl, length_reverse, length_seqZ, length_app, length_fmap in Hperm.
  split; [lia|]. apply to_int_id.
  rewrite rows_eq in *. unfold int_min, int_max. lia.
Qed.

Lemma dynamic_accounting_witness :
  counter (run sample_work (round_robin 2 301) (spawn 1 2, [])).1
  + Z.of_nat (length (in_flight
       (threads (run sample_work (round_robin 2 301) (spawn 1 2, [])).1)))
  + Z.of_nat (length (summed
       (run sample_work (round_robin 2 301) (spawn 1 2, [])).2))
  = rows.
Proof.
  exact (proj1 (dynamic_accounting sample_work 2 (round_robin 2 301)
                  valid_threads_2)).
Defined.

Lemma dynamic_counter_step (work : Z → Z → Z) c tid :
  dynamic_inv c → counter (sched_step work c tid).1 ≤ counter c.1.
Proof.
  intros (Hc & _ & _ & Hths). rewrite sched_step_state. unfold thread_step.
  destruct (threads c.1 !! tid) as [l|] eqn:Hl; [|done].
  pose proof (Forall_lookup_1 _ _ _ _ Hths Hl) as Hdl.
  destruct l as [i m| |r|]; simpl in Hdl; [done| |done|done].
  unfold sum_dynamic_lock. rewrite claim_spec by done.
  destruct (decide (0 < counter c.1)); simpl; lia.
Qed.

Lemma dynamic_counter_run (work : Z → Z → Z) sched c :
  dynamic_inv c → counter (run work sched c).1 ≤ counter c.1.
Proof.
  revert c. induction sched as [|tid sched IH]; intros c Hinv; [done|].
  simpl. etrans; [apply IH; by apply dynamic_inv_step|].
  by apply dynamic_counter_step.
Qed.

(** In dynamic mode [counter] only goes down: however a run is continued,
    it is never above what it was, and it is [rows] less the number of
    rows handed out so far. *)
Theorem counter_descends (work : Z → Z → Z) (n : Z) (sched sched' : list nat) :
  valid_threads n →
  counter (run work (sched ++ sched') (spawn 1 n, [])).1
  ≤ counter (run work sched (spawn 1 n, [])).1 ∧
  counter (run work sched (spawn 1 n, [])).1
  = rows - Z.of_nat (length (claimed (run work sched (spawn 1 n, [])).2)).
Proof.
  intros Hvalid.
  pose proof (run_inv_reach work 1 n Hvalid sched (or_intror eq_refl))
    as [_ [[_ Hdyn]|[? _]]]; [|done].
  split.
  - rewrite run_app. by apply dynamic_counter_run.
  - destruct Hdyn as (Hc & Hcl & _). rewrite Hcl, length_reverse, length_seqZ.
    lia.
Qed.

Lemma counter_descends_witness :
  counter (run sample_work (round_robin 2 50 ++ turns 2 30) (spawn 1 2, [])).1
  ≤ counter (run sample_work (round_robin 2 50) (spawn 1 2, [])).1.
Proof.
  exact (proj1 (counter_descends sample_work 2 (round_robin 2 50) (turns 2 30)
                  valid_threads_2)).
Defined.

(** At every point of every run the fold of the [sum] vector is what a
    serial pass over the rows added so far, in the order they were added,
    leaves in one [uint64_t] accumulator; the partial results never hold
    anything else. *)
Theorem partial_sums_consistent (work : Z → Z → Z) (dflag n : Z)
    (sched : list nat) :
  valid_threads n → is_mode dflag →
  gross_sum (run work sched (spawn dflag n, [])).1
  = foldl (sum_row work) 0
          (summed (run work sched (spawn dflag n, [])).2).*2.
Proof.
  intros Hvalid Hmode.
  pose proof (run_inv_reach work dflag n Hvalid sched Hmode) as Hinv.
  destruct (run work sched (spawn dflag n, [])) as [s tr]. simpl.
  rewrite (gross_sum_cast work dflag n s tr Hinv).
  pose proof (foldl_sum_row work (summed tr).*2 0) as Hfold.
  rewrite Z.add_0_l in Hfold. symmetry. exact Hfold.
Qed.

Lemma partial_sums_consistent_witness :
  gross_sum (run sample_work (round_robin 4 100) (spawn 0 4, [])).1
  = foldl (sum_row sample_work) 0
          (summed (run sample_work (round_robin 4 100) (spawn 0 4, [])).2).*2.
Proof.
  exact (partial_sums_consistent sample_work 0 4 (round_robin 4 100)
           valid_threads_4 (or_introl eq_refl)).
Defined.

(** ** The static assignment at every point of a run *)

Lemma take_while_app_all {A} (p : A → bool) l1 l2 :
  Forall (λ x, p x = true) l1 →
  take_while p (l1 ++ l2) = l1 ++ take_while p l2.
Proof. induction 1 as [|x l1 Hx _ IH]; simpl; [done|]. by rewrite Hx, IH. Qed.

Lemma static_thread_state (work : Z → Z → Z) n s tr (tid : nat) :
  valid_threads n → run_inv work 0 n (s, tr) → (tid < Z.to_nat n)%nat →
  ∃ k, 0 ≤ k ≤ rows ∧
       rows_of tid tr = (λ j, Z.of_nat tid + j * n) <$> seqZ 0 k ∧
       (0 < k → Z.of_nat tid + (k - 1) * n < rows) ∧
       slot (tcount s) tid = k.
Proof.
  intros Hvalid Hinv Htid.
  destruct (rows_of_short work 0 n s tr tid Hvalid Hinv Htid) as [Hshort _].
  destruct Hvalid as [Hn1 Hn2].
  destruct Hinv as [(Hlen & Ht & _) [[? _]|[_ Hst]]]; [done|]. simpl in *.
  destruct (lookup_lt_is_Some_2 (threads s) tid) as [l Hl]; [lia|].
  destruct (Hst _ _ Hl) as (k & Hk & Hr & Hlast & _). simpl in Hr.
  exists k. rewrite Hr, length_fmap, length_seqZ in Hshort.
  split_and!; try done; try lia.
  rewrite Ht, slot_fmap_seq, Hr, length_fmap, length_seqZ by done.
  rewrite to_int_id; [lia|]. rewrite rows_eq in *.
  unfold int_min, int_max. lia.
Qed.

(** At every point of a static run, finished or not, the rows a thread has
    added so far are an initial part of its stride [tid], [tid + n], ...,
    in that order, and its [tcount] slot is their number. *)
Theorem static_rows_prefix (work : Z → Z → Z) (n : Z) (sched : list nat)
    (tid : nat) :
  valid_threads n → (tid < Z.to_nat n)%nat →
  rows_of tid (run work sched (spawn 0 n, [])).2
    `prefix_of` stride_rows (Z.of_nat tid) n ∧
  slot (tcount (run work sched (spawn 0 n, [])).1) tid
  = Z.of_nat (length (rows_of tid (run work sched (spawn 0 n, [])).2)).
Proof.
  intros Hvalid Htid.
  pose proof (run_inv_reach work 0 n Hvalid sched (or_introl eq_refl)) as Hinv.
  destruct (run work sched (spawn 0 n, [])) as [s tr]. simpl.
  destruct (static_thread_state work n s tr tid Hvalid Hinv Htid)
    as (k & Hk & Hr & Hlast & Hcount).
  destruct Hvalid as [Hn1 Hn2]. split.
  - rewrite Hr. unfold stride_rows.
    replace (seqZ 0 rows) with (seqZ 0 (k + (rows - k))) by (f_equal; lia).
    rewrite seqZ_app, fmap_app by lia.
    rewrite take_while_app_all.
    + by eexists.
    + apply Forall_fmap, Forall_seqZ. intros j Hj. simpl.
      apply Z.ltb_lt. nia.
  - rewrite Hcount, Hr, length_fmap, length_seqZ. lia.
Qed.

Lemma static_rows_prefix_witness :
  rows_of 1 (run sample_work (round_robin 4 100) (spawn 0 4, [])).2
    `prefix_of` stride_rows 1 4.
Proof.
  assert (Htid : (1 < Z.to_nat 4)%nat) by (simpl; lia).
  exact (proj1 (static_rows_prefix sample_work 4 (round_robin 4 100) 1
                  valid_threads_4 Htid)).
Defined.

(** With more threads than rows, a static thread whose identifier is not
    below [rows] finds its loop test false at once: it never adds a row,
    and its slots stay 0, at every point of every run. *)
Theorem static_thread_beyond_rows (work : Z → Z → Z) (n : Z) (sched : list nat)
    (tid : nat) :
  valid_threads n → (tid < Z.to_nat n)%nat → rows ≤ Z.of_nat tid →
  rows_of tid (run work sched (spawn 0 n, [])).2 = [] ∧
  slot (tcount (run work sched (spawn 0 n, [])).1) tid = 0 ∧
  slot (sum (run work sched (spawn 0 n, [])).1) tid = 0.
Proof.
  intros Hvalid Htid Hbeyond.
  pose proof (run_inv_reach work 0 n Hvalid sched (or_introl eq_refl)) as Hinv.
  destruct (run work sched (spawn 0 n, [])) as [s tr]. simpl.
  destruct (static_thread_state work n s tr tid Hvalid Hinv Htid)
    as (k & Hk & Hr & Hlast & Hcount).
  assert (k = 0) as -> by (destruct Hvalid; nia).
  destruct Hinv as [(_ & _ & Hs & _) _]. simpl in *.
  split_and!; [done|done|].
  rewrite Hs, slot_fmap_seq, Hr by done. reflexivity.
Qed.

Lemma valid_threads_1001 : valid_threads 1001.
Proof. unfold valid_threads, rows, int_max. lia. Defined.

Lemma static_thread_beyond_rows_witness :
  rows_of 1000 (run sample_work [1000; 0; 1000]%nat (spawn 0 1001, [])).2 = [].
Proof.
  assert (Htid : (1000 < Z.to_nat 1001)%nat) by lia.
  assert (Hrows : rows ≤ Z.of_nat 1000) by (unfold rows; lia).
  exact (proj1 (static_thread_beyond_rows sample_work 1001
                  [1000; 0; 1000]%nat 1000 valid_threads_1001 Htid Hrows)).
Defined.

(** The static assignment is balanced: when every thread is joined, a
    thread with a smaller identifier has added as many rows as one with a
    larger identifier, or one more; a thread whose identifier is below
    [rows] has added [(rows - 1 - tid) / n + 1] rows. *)
Theorem static_balance (work : Z → Z → Z) (n : Z) (sched : list nat)
    (t1 t2 : nat) :
  valid_threads n → (t1 ≤ t2)%nat → (t2 < Z.to_nat n)%nat →
  joined n (run work sched (spawn 0 n, [])).1 = true →
  slot (tcount (run work sched (spawn 0 n, [])).1) t2
  ≤ slot (tcount (run work sched (spawn 0 n, [])).1) t1
  ≤ slot (tcount (run work sched (spawn 0 n, [])).1) t2 + 1 ∧
  (Z.of_nat t1 < rows →
   slot (tcount (run work sched (spawn 0 n, [])).1) t1
   = (rows - 1 - Z.of_nat t1) `div` n + 1).
Proof.
  intros Hvalid Hle Ht2 Hj.
  pose proof (run_inv_reach work 0 n Hvalid sched (or_introl eq_refl)) as Hinv.
  destruct (run work sched (spawn 0 n, [])) as [s tr]. simpl in *.
  assert (Ht1 : (t1 < Z.to_nat n)%nat) by lia.
  destruct (static_thread_state work n s tr t1 Hvalid Hinv Ht1)
    as (k1 & Hk1 & Hr1 & Hlast1 & ->).
  destruct (static_thread_state work n s tr t2 Hvalid Hinv Ht2)
    as (k2 & Hk2 & Hr2 & Hlast2 & ->).
  destruct (static_finished work 0 n s tr Hinv Hj t1 eq_refl Ht1)
    as (k1' & Hk1' & Hr1' & _ & Hstop1).
  destruct (static_finished work 0 n s tr Hinv Hj t2 eq_refl Ht2)
    as (k2' & Hk2' & Hr2' & _ & Hstop2).
  assert (k1' = k1) as ->.
  { apply (f_equal length) in Hr1'.
    rewrite Hr1, !length_fmap, !length_seqZ in Hr1'. lia. }
  assert (k2' = k2) as ->.
  { apply (f_equal length) in Hr2'.
    rewrite Hr2, !length_fmap, !length_seqZ in Hr2'. lia. }
  destruct Hvalid as [Hn1 Hn2]. split; [split; nia|].
  intros Hbelow.
  pose proof (Z.div_mod (rows - 1 - Z.of_nat t1) n) as Hdiv.
  pose proof (Z.mod_pos_bound (rows - 1 - Z.of_nat t1) n) as Hmod.
  nia.
Qed.

Lemma static_balance_witness :
  slot (tcount (run sample_work (turns 3 335) (spawn 0 3, [])).1) 2
  ≤ slot (tcount (run sample_work (turns 3 335) (spawn 0 3, [])).1) 0
  ≤ slot (tcount (run sample_work (turns 3 335) (spawn 0 3, [])).1) 2 + 1.
Proof.
  assert (Hvalid : valid_threads 3)
    by (unfold valid_threads, rows, int_max; lia).
  assert (Hle : (0 ≤ 2)%nat) by lia.
  assert (Ht : (2 < Z.to_nat 3)%nat) by lia.
  assert (Hj : joined 3 (run sample_work (turns 3 335) (spawn 0 3, [])).1
               = true) by reflexivity.
  exact (proj1 (static_balance sample_work 3 (turns 3 335) 0 2
                  Hvalid Hle Ht Hj)).
Defined.

(** ** Fair scheduling *)

Section RoundRobin.

Variable work : Z → Z → Z.
Variables dflag n : Z.
Hypothesis Hvalid : valid_threads n.

Lemma fuel_sched_step_le c tid :
  run_inv work dflag n c →
  (fuel (sched_step work c tid).1 ≤ fuel c.1)%nat.
Proof.
  intros Hinv. rewrite sched_step_state.
  destruct (threads c.1 !! tid) as [l|] eqn:Hl.
  - assert (l = Exited ∨ l ≠ Exited) as [->|Hrun]
      by (destruct l; (by left) || (by right)).
    + by rewrite thread_step_exited.
    + pose proof (fuel_step work dflag n Hvalid c tid l Hinv Hl Hrun). lia.
  - unfold thread_step. by rewrite Hl.
Qed.

Lemma fuel_run_le sched c :
  run_inv work dflag n c → (fuel (run work sched c).1 ≤ fuel c.1)%nat.
Proof.
  revert c. induction sched as [|tid sched IH]; intros c Hinv; [done|].
  simpl. etrans; [apply IH; by apply run_inv_step|].
  by apply fuel_sched_step_le.
Qed.

Lemma run_keeps_others sched c (tid : nat) :
  tid ∉ sched → threads (run work sched c).1 !! tid = threads c.1 !! tid.
Proof.
  revert c. induction sched as [|t sched IH]; intros c Hnotin; [done|].
  apply not_elem_of_cons in Hnotin as [Hne Hnotin]. simpl.
  rewrite IH, sched_step_state by done.
  by apply thread_step_frame.
Qed.

(** One round in which every thread gets a turn uses up fuel as long as
    some thread has not returned. *)
Lemma round_uses_fuel c :
  run_inv work dflag n c → joined n c.1 = false →
  (fuel (run work (seq 0 (Z.to_nat n)) c).1 < fuel c.1)%nat.
Proof.
  intros Hinv Hj. pose proof Hinv as [(Hlen & _) _].
  destruct (not_joined_running n c.1 Hlen Hj) as (tid & l & Hl & Hrun).
  pose proof (lookup_lt_Some _ _ _ Hl) as Hlt. rewrite Hlen in Hlt.
  replace (Z.to_nat n) with (tid + S (Z.to_nat n - S tid))%nat by lia.
  rewrite seq_app, run_app. simpl.
  set (c1 := run work (seq 0 tid) c).
  assert (Hinv1 : run_inv work dflag n c1) by by apply run_inv_run.
  assert (Hl1 : threads c1.1 !! tid = Some l).
  { unfold c1. rewrite run_keeps_others; [done|].
    rewrite elem_of_seq. lia. }
  pose proof (fuel_run_le (seq 0 tid) c Hinv) as Hle1. fold c1 in Hle1.
  pose proof (fuel_step work dflag n Hvalid c1 tid l Hinv1 Hl1 Hrun) as Hlt1.
  rewrite <- sched_step_state in Hlt1.
  pose proof (fuel_run_le (seq (S tid) (Z.to_nat n - S tid))
                (sched_step work c1 tid)
                (run_inv_step work dflag n Hvalid c1 tid Hinv1)) as Hle2.
  lia.
Qed.

Lemma round_robin_joins k c :
  run_inv work dflag n c → (fuel c.1 ≤ k)%nat →
  joined n (run work (round_robin (Z.to_nat n) k) c).1 = true.
Proof.
  revert c. induction k as [|k IH]; intros c Hinv Hfuel;
    pose proof Hinv as [(Hlen & _) _];
    destruct (joined n c.1) eqn:Hj;
    try (by rewrite (joined_run_idle work n _ c Hlen Hj)).
  - destruct (not_joined_running n c.1 Hlen Hj) as (tid & l & Hl & Hrun).
    pose proof (fuel_step work dflag n Hvalid c tid l Hinv Hl Hrun). lia.
  - change (round_robin (Z.to_nat n) (S k))
      with (seq 0 (Z.to_nat n) ++ round_robin (Z.to_nat n) k).
    rewrite run_app. apply IH; [by apply run_inv_run|].
    pose proof (round_uses_fuel c Hinv Hj). lia.
Qed.

End RoundRobin.

Lemma weight_bound (ths : list local) (b : nat) :
  Forall (λ l, (weight l ≤ b)%nat) ths →
  (sum_list_with weight ths ≤ length ths * b)%nat.
Proof. induction 1 as [|l ths Hl _ IH]; simpl; lia. Qed.

Lemma fuel_spawn dflag n :
  valid_threads n → is_mode dflag →
  (fuel (spawn dflag n)
   ≤ 2 * Z.to_nat rows + Z.to_nat n * S (Z.to_nat rows))%nat.
Proof.
  intros [Hn1 Hn2] Hmode. unfold fuel.
  assert (Hths : (sum_list_with weight (threads (spawn dflag n))
                  ≤ length (threads (spawn dflag n)) * S (Z.to_nat rows))%nat).
  { apply weight_bound. unfold spawn. simpl.
    destruct Hmode as [-> | ->]; simpl.
    - apply Forall_fmap, Forall_forall. intros i Hi%elem_of_seq. simpl.
      rewrite to_int_id; [lia|].
      rewrite rows_eq in *. unfold int_min, int_max in *. lia.
    - apply Forall_replicate. simpl. lia. }
  assert (Hlen : length (threads (spawn dflag n)) = Z.to_nat n).
  { unfold spawn. simpl. destruct Hmode as [-> | ->]; simpl.
    - by rewrite length_fmap, length_seq.
    - by rewrite length_replicate. }
  rewrite Hlen in Hths. change (counter (spawn dflag n)) with rows.
  revert Hths. generalize (Z.to_nat n * S (Z.to_nat rows))%nat.
  generalize (sum_list_with weight (threads (spawn dflag n))).
  intros a b Hab. lia.
Qed.

(** No thread can be starved into blocking the others, and none loops for
    ever: under the round-robin schedule, in both modes, every thread has
    returned after [2 * rows + n * (rows + 1)] rounds at the latest, so
    every [join] of [main] returns. *)
Theorem round_robin_finishes (work : Z → Z → Z) (dflag n : Z) (k : nat) :
  valid_threads n → is_mode dflag →
  (2 * Z.to_nat rows + Z.to_nat n * S (Z.to_nat rows) ≤ k)%nat →
  joined n (run work (round_robin (Z.to_nat n) k) (spawn dflag n, [])).1
  = true.
Proof.
  intros Hvalid Hmode Hk. apply (round_robin_joins work dflag n Hvalid).
  - by apply run_inv_spawn.
  - pose proof (fuel_spawn dflag n Hvalid Hmode). simpl. lia.
Qed.

Lemma round_robin_finishes_witness :
  joined 2 (run sample_work (round_robin (Z.to_nat 2) 4002) (spawn 1 2, [])).1
  = true.
Proof.
  assert (Hk : (2 * Z.to_nat rows + Z.to_nat 2 * S (Z.to_nat rows) ≤ 4002)%nat)
    by (unfold rows; lia).
  exact (round_robin_finishes sample_work 1 2 4002 valid_threads_2
           (or_intror eq_refl) Hk).
Defined.

(** ** What does not depend on the schedule *)

(** The [uint64_t] accumulation does not care about the order of the rows:
    adding the same rows in another order, wrap-around included, leaves the
    same value in the accumulator. *)
Theorem row_order_irrelevant (work : Z → Z → Z) (l l' : list Z) :
  l ≡ₚ l' → foldl (sum_row work) 0 l = foldl (sum_row work) 0 l'.
Proof.
  intros Hperm.
  pose proof (foldl_sum_row work l 0) as Hl.
  pose proof (foldl_sum_row work l' 0) as Hl'.
  rewrite (cast_rows_perm work l l' Hperm) in Hl.
  exact (eq_trans Hl (eq_sym Hl')).
Qed.

Lemma row_order_irrelevant_witness :
  foldl (sum_row sample_work) 0 [999; 0; 500]
  = foldl (sum_row sample_work) 0 [0; 500; 999].
Proof.
  apply (row_order_irrelevant sample_work [999; 0; 500] [0; 500; 999]).
  by rewrite (Permutation_cons_append [0; 500] 999).
Defined.

(** In dynamic mode the schedule decides which thread adds which row, but
    not the result: any two runs that join all threads end with the same
    [gross_sum] and the same [total_work]. *)
Theorem dynamic_result_schedule_free (work : Z → Z → Z) (n : Z)
    (sched1 sched2 : list nat) :
  valid_threads n →
  joined n (run work sched1 (spawn 1 n, [])).1 = true →
  joined n (run work sched2 (spawn 1 n, [])).1 = true →
  gross_sum (run work sched1 (spawn 1 n, [])).1
  = gross_sum (run work sched2 (spawn 1 n, [])).1 ∧
  total_work n (run work sched1 (spawn 1 n, [])).1
  = total_work n (run work sched2 (spawn 1 n, [])).1.
Proof.
  intros Hvalid Hj1 Hj2.
  pose proof (run_inv_reach work 1 n Hvalid sched1 (or_intror eq_refl)) as H1.
  pose proof (run_inv_reach work 1 n Hvalid sched2 (or_intror eq_refl)) as H2.
  destruct (run work sched1 (spawn 1 n, [])) as [s1 tr1].
  destruct (run work sched2 (spawn 1 n, [])) as [s2 tr2]. simpl in *.
  rewrite (gross_sum_reference work 1 n Hvalid s1 tr1 H1 Hj1).
  rewrite (gross_sum_reference work 1 n Hvalid s2 tr2 H2 Hj2).
  rewrite (total_work_rows work 1 n Hvalid s1 tr1 H1 Hj1).
  rewrite (total_work_rows work 1 n Hvalid s2 tr2 H2 Hj2).
  split; reflexivity.
Qed.

(** The two schedules of the witness do hand the rows out differently:
    in turns the first thread takes them all, round robin they are split
    evenly. *)
Lemma dynamic_result_schedule_free_witness :
  (tcount (run sample_work (turns 2 2001) (spawn 1 2, [])).1 = [1000; 0] ∧
   tcount (run sample_work (round_robin 2 1002) (spawn 1 2, [])).1
   = [500; 500]) ∧
  gross_sum (run sample_work (turns 2 2001) (spawn 1 2, [])).1
  = gross_sum (run sample_work (round_robin 2 1002) (spawn 1 2, [])).1 ∧
  total_work 2 (run sample_work (turns 2 2001) (spawn 1 2, [])).1
  = total_work 2 (run sample_work (round_robin 2 1002) (spawn 1 2, [])).1.
Proof.
  assert (Hj1 : joined 2 (run sample_work (turns 2 2001) (spawn 1 2, [])).1
                = true) by reflexivity.
  assert (Hj2 : joined 2 (run sample_work (round_robin 2 1002)
                            (spawn 1 2, [])).1 = true) by reflexivity.
  split.
  - split; lazy; reflexivity.
  - exact (dynamic_result_schedule_free sample_work 2 (turns 2 2001)
             (round_robin 2 1002) valid_threads_2 Hj1 Hj2).
Defined.
